(** * concat.py: concatenation of the CrudManager sources

    A shallow embedding of [concat.py] and of the parts of the Python
    run time it calls: text files opened with [encoding="utf-8"], the
    [errors="ignore"] decoder, universal newlines, [Path.glob] on one
    directory, and [sorted] with a key.

    The script starts with [#!/usr/bin/env python3]; the embedding takes
    the run-time behaviour of a POSIX system: [pathlib] compares names
    case-sensitively and a text file writes ["\n"] as the one byte 0x0A. *)

From Stdlib.Strings Require Import String Ascii Byte.
From Stdlib Require Import List NArith Lia Bool Permutation Sorted.
Import ListNotations.

Local Open Scope N_scope.

(** ** Python [str] and [bytes] *)

(** A Python [str] is a sequence of code points; [bytes] a sequence of
    octets. *)
Definition str := list N.
Definition bytes := list byte.

(** A string literal of the script, as a [str] (ASCII literals only). *)
Definition lit (s : string) : str :=
  map N_of_ascii (list_ascii_of_string s).

(** [s * n] on strings. *)
Definition str_repeat (s : str) (n : nat) : str :=
  concat (repeat s n).

(** [a < b] on [str]: lexicographic on code points. *)
Fixpoint str_ltb (a b : str) : bool :=
  match a, b with
  | _, [] => false
  | [], _ :: _ => true
  | x :: a', y :: b' =>
      if x <? y then true
      else if y <? x then false
      else str_ltb a' b'
  end.

Definition str_eqb (a b : str) : bool :=
  if list_eq_dec N.eq_dec a b then true else false.

(** [str.lower] restricted to ASCII text: [A]..[Z] move to [a]..[z], every
    other code point stays. *)
Definition ascii_lower_cp (c : N) : N :=
  if (65 <=? c) && (c <=? 90) then c + 32 else c.

Definition ascii_lower (s : str) : str := map ascii_lower_cp s.

Definition is_ascii (s : str) : Prop := Forall (fun c => c < 128) s.

(** What the development assumes of [str.lower] where it needs more than
    "some function": on ASCII text it is [ascii_lower]. *)
Definition lower_on_ascii (lower : str -> str) : Prop :=
  forall s, is_ascii s -> lower s = ascii_lower s.

(** [subseq a b]: [a] is [b] with some elements left out. *)
Inductive subseq {A : Type} : list A -> list A -> Prop :=
| subseq_nil : subseq [] []
| subseq_keep x a b : subseq a b -> subseq (x :: a) (x :: b)
| subseq_drop x a b : subseq a b -> subseq a (x :: b).

(** ** Exceptions *)

Inductive exn : Type :=
| UnicodeDecodeError
| UnicodeEncodeError
| IsADirectoryError
| FileNotFoundError.

Definition except (A : Type) : Type := (exn + A)%type.

(** ** The UTF-8 codec *)

Module Utf8.

Inductive errors : Type := Strict | Ignore.

Definition is_continuation (c : N) : bool := (0x80 <=? c) && (c <? 0xC0).

Definition is_surrogate (c : N) : bool := (0xD800 <=? c) && (c <=? 0xDFFF).

(** Code points a decoder can produce and the strict encoder accepts. *)
Definition is_scalar (c : N) : bool :=
  (c <? 0x110000) && negb (is_surrogate c).

(** The error handler at an invalid sequence: [strict] raises, [ignore]
    resumes after the bytes of the error range ([k] decodes from
    there). *)
Definition on_error (h : errors) (k : except str) : except str :=
  match h with
  | Strict => inl UnicodeDecodeError
  | Ignore => k
  end.

(** "unexpected end of data": the error range runs to the end of the
    input. *)
Definition on_truncated (h : errors) : except str :=
  on_error h (inr []).

Definition emit (c : N) (k : except str) : except str :=
  match k with
  | inl e => inl e
  | inr s => inr (c :: s)
  end.

(** The decoder, one lead byte at a time, with the final flag set (the
    whole file is read at once).  An invalid start byte has an error
    range of one byte; an invalid continuation byte ends an error range
    that holds the bytes before it, and decoding resumes at that byte. *)
Fixpoint decode (h : errors) (bs : bytes) : except str :=
  match bs with
  | [] => inr []
  | b1 :: r1 =>
    let ch := Byte.to_N b1 in
    if ch <? 0x80 then emit ch (decode h r1)
    else if ch <? 0xC2 then on_error h (decode h r1)
    else if ch <? 0xE0 then
      match r1 with
      | [] => on_truncated h
      | b2 :: r2 =>
        let ch2 := Byte.to_N b2 in
        if negb (is_continuation ch2) then on_error h (decode h r1)
        else emit (N.shiftl ch 6 + ch2 - (N.shiftl 0xC0 6 + 0x80))
                  (decode h r2)
      end
    else if ch <? 0xF0 then
      match r1 with
      | [] => on_truncated h
      | b2 :: r2 =>
        let ch2 := Byte.to_N b2 in
        if negb (is_continuation ch2)
           || (if ch2 <? 0xA0 then ch =? 0xE0 else ch =? 0xED)
        then on_error h (decode h r1)
        else
          match r2 with
          | [] => on_truncated h
          | b3 :: r3 =>
            let ch3 := Byte.to_N b3 in
            if negb (is_continuation ch3) then on_error h (decode h r2)
            else emit (N.shiftl ch 12 + N.shiftl ch2 6 + ch3
                       - (N.shiftl 0xE0 12 + N.shiftl 0x80 6 + 0x80))
                      (decode h r3)
          end
      end
    else if ch <? 0xF5 then
      match r1 with
      | [] => on_truncated h
      | b2 :: r2 =>
        let ch2 := Byte.to_N b2 in
        if negb (is_continuation ch2)
           || (if ch2 <? 0x90 then ch =? 0xF0 else ch =? 0xF4)
        then on_error h (decode h r1)
        else
          match r2 with
          | [] => on_truncated h
          | b3 :: r3 =>
            let ch3 := Byte.to_N b3 in
            if negb (is_continuation ch3) then on_error h (decode h r2)
            else
              match r3 with
              | [] => on_truncated h
              | b4 :: r4 =>
                let ch4 := Byte.to_N b4 in
                if negb (is_continuation ch4) then on_error h (decode h r3)
                else emit (N.shiftl ch 18 + N.shiftl ch2 12
                           + N.shiftl ch3 6 + ch4
                           - (N.shiftl 0xF0 18 + N.shiftl 0x80 12
                              + N.shiftl 0x80 6 + 0x80))
                          (decode h r4)
              end
          end
      end
    else on_error h (decode h r1)
  end.

Definition byte_of_N (n : N) : byte :=
  match Byte.of_N n with
  | Some b => b
  | None => x00
  end.

(** The bytes of one code point (the surrogate check is in [encode]). *)
Definition encode_cp (ch : N) : bytes :=
  if ch <? 0x80 then [byte_of_N ch]
  else if ch <? 0x800 then
    [byte_of_N (N.lor 0xC0 (N.shiftr ch 6));
     byte_of_N (N.lor 0x80 (N.land ch 0x3F))]
  else if ch <? 0x10000 then
    [byte_of_N (N.lor 0xE0 (N.shiftr ch 12));
     byte_of_N (N.lor 0x80 (N.land (N.shiftr ch 6) 0x3F));
     byte_of_N (N.lor 0x80 (N.land ch 0x3F))]
  else
    [byte_of_N (N.lor 0xF0 (N.shiftr ch 18));
     byte_of_N (N.lor 0x80 (N.land (N.shiftr ch 12) 0x3F));
     byte_of_N (N.lor 0x80 (N.land (N.shiftr ch 6) 0x3F));
     byte_of_N (N.lor 0x80 (N.land ch 0x3F))].

Definition encode_bytes (s : str) : bytes := flat_map encode_cp s.

(** The strict encoder: a surrogate raises. *)
Definition encode (s : str) : except bytes :=
  if existsb is_surrogate s then inl UnicodeEncodeError
  else inr (encode_bytes s).

(** [decodes h bs s]: [bs] is the encoding of [s] with, under
    [errors="ignore"] only, further bytes in between. *)
Inductive decodes : errors -> bytes -> str -> Prop :=
| decodes_nil h : decodes h [] []
| decodes_char h c r s :
    is_scalar c = true -> decodes h r s ->
    decodes h (encode_cp c ++ r) (c :: s)
| decodes_skip b r s :
    decodes Ignore r s -> decodes Ignore (b :: r) s.

End Utf8.

(** ** Text files *)

(** Universal newlines on reading ([newline=None]): ["\r\n"] and a lone
    ["\r"] both become ["\n"]. *)
Fixpoint universal_newlines (s : str) : str :=
  match s with
  | [] => []
  | c :: r =>
      if c =? 13 then
        10 :: match r with
              | [] => []
              | c2 :: r2 =>
                  if c2 =? 10 then universal_newlines r2
                  else universal_newlines r
              end
      else c :: universal_newlines r
  end.

(** ** [fnmatch] and [sorted] *)

(** Shell-style matching of a whole name, case-sensitively: [*] matches
    any run of characters (a leading dot too: [pathlib] does not hide
    dot files), [?] one character, every other character itself.
    Bracket expressions are left out; the script's pattern has none. *)
Fixpoint fnmatch (pat : str) : str -> bool :=
  match pat with
  | [] => fun name => match name with [] => true | _ :: _ => false end
  | p :: pat' =>
      if p =? 42 then
        fix star (name : str) : bool :=
          fnmatch pat' name
          || match name with
             | [] => false
             | _ :: name' => star name'
             end
      else
        fun name =>
          match name with
          | [] => false
          | c :: name' => ((p =? 63) || (c =? p)) && fnmatch pat' name'
          end
  end.

Section Sorted.

Context {A : Type}.
Variable key : A -> str.

(** [x] goes before the first element whose key is not below its own:
    elements with equal keys keep their order. *)
Fixpoint insert (x : A) (l : list A) : list A :=
  match l with
  | [] => [x]
  | y :: l' =>
      if str_ltb (key y) (key x) then y :: insert x l'
      else x :: y :: l'
  end.

(** [sorted(l, key=key)]: ascending in the keys, stable. *)
Definition sorted (l : list A) : list A := fold_right insert [] l.

(** The key of [x] is not above the key of [y]. *)
Definition key_le (x y : A) : Prop := str_ltb (key y) (key x) = false.

End Sorted.

(** ** The working directory *)

(** An entry is a regular file that can be read and written, or a
    directory.  Every name has bytes of its own: symbolic and hard
    links between names are not part of a [directory] (what the script
    does with a symbolic link is described apart, under [entry]), nor
    are access rights. *)
Inductive node : Type :=
| File (data : bytes)
| Dir.

(** The entries of the working directory, in the order in which the
    operating system enumerates them. *)
Definition directory := list (str * node).

Fixpoint lookup (name : str) (d : directory) : option node :=
  match d with
  | [] => None
  | (n, x) :: d' => if str_eqb n name then Some x else lookup name d'
  end.

(** The entry [name] becomes a regular file holding [data]: in place when
    it exists, as a new last entry when it does not. *)
Fixpoint store (name : str) (data : bytes) (d : directory) : directory :=
  match d with
  | [] => [(name, File data)]
  | (n, x) :: d' =>
      if str_eqb n name then (n, File data) :: d'
      else (n, x) :: store name data d'
  end.

(** ** Commands: a directory state and exceptions *)

(** A command runs on the directory and either returns or raises; what it
    wrote before raising stays written. *)
Definition cmd (A : Type) : Type := directory -> except A * directory.

Definition ret {A : Type} (a : A) : cmd A := fun d => (inr a, d).

Definition raise {A : Type} (e : exn) : cmd A := fun d => (inl e, d).

Definition bind {A B : Type} (m : cmd A) (k : A -> cmd B) : cmd B :=
  fun d =>
    match m d with
    | (inl e, d') => (inl e, d')
    | (inr a, d') => k a d'
    end.

Declare Scope cmd_scope.
Delimit Scope cmd_scope with cmd.
Notation "x <- m ;; k" := (bind m (fun x => k))
  (at level 61, m at next level, right associativity) : cmd_scope.
Notation "m ;; k" := (bind m (fun _ => k))
  (at level 61, right associativity) : cmd_scope.

Local Open Scope cmd_scope.

(** [for x in l: body(x)] *)
Fixpoint for_each {A : Type} (l : list A) (body : A -> cmd unit) : cmd unit :=
  match l with
  | [] => ret tt
  | x :: l' => body x ;; for_each l' body
  end.

(** [p.open("w", encoding="utf-8")]: the file is created or truncated. *)
Definition open_w (p : str) : cmd unit :=
  fun d =>
    match lookup p d with
    | Some Dir => (inl IsADirectoryError, d)
    | Some (File _) | None => (inr tt, store p [] d)
    end.

(** [out.write(s)] on the file opened at [p]: the text is encoded and
    its bytes go to the end of the file. *)
Definition write (p : str) (s : str) : cmd unit :=
  fun d =>
    match Utf8.encode s with
    | inl e => (inl e, d)
    | inr bs =>
        match lookup p d with
        | Some (File old) => (inr tt, store p (old ++ bs) d)
        | Some Dir => (inl IsADirectoryError, d)
        | None => (inl FileNotFoundError, d)
        end
    end.

(** What [f.read()] returns for a file of the given bytes, opened with
    [encoding="utf-8", errors="ignore"]. *)
Definition decoded (data : bytes) : except str :=
  match Utf8.decode Utf8.Ignore data with
  | inl e => inl e
  | inr s => inr (universal_newlines s)
  end.

(** [with p.open("r", encoding="utf-8", errors="ignore") as f: f.read()]
    on the entries of a [directory]: of the failures of [open], only the
    one on a directory and the one on a missing name are there. *)
Definition read_text (p : str) : cmd str :=
  fun d =>
    match lookup p d with
    | Some (File data) => (decoded data, d)
    | Some Dir => (inl IsADirectoryError, d)
    | None => (inl FileNotFoundError, d)
    end.

(** [Path(".").glob(pat)] for a pattern of one component: the names of
    the entries that match, in enumeration order. *)
Definition glob (pat : str) : cmd (list str) :=
  fun d => (inr (filter (fnmatch pat) (map fst d)), d).

(** ** The script *)

Definition output_file : str := lit "allCrudManagers.txt".

Definition newline : str := [10].

Definition separator : str := str_repeat (lit "-") 100 ++ newline.

Definition pattern : str := lit "*CrudManager.java".

(** The line that [print] sends to standard output. *)
Definition message : str :=
  lit "Fichiers concat" ++ [233] ++ lit "n" ++ [233] ++ lit "s dans "
  ++ output_file.

Section Script.

(** [str.lower]: it follows the Unicode tables of the interpreter and
    is taken as given. *)
Variable lower : str -> str.

Definition body (file : str) : cmd unit :=
  text <- read_text file ;;
  write output_file text ;;
  write output_file (newline ++ separator).

Definition main : cmd str :=
  open_w output_file ;;
  files <- glob pattern ;;
  for_each (sorted lower files) body ;;
  ret message.

End Script.

(** The bytes of the output file in a directory. *)
Definition output (d : directory) : option bytes :=
  match lookup output_file d with
  | Some (File data) => Some data
  | _ => None
  end.

(** The names that [glob] returns for the script's pattern, and the
    files of the loop in the order in which it takes them. *)
Definition matched (d : directory) : list str :=
  filter (fnmatch pattern) (map fst d).

Definition inputs (lower : str -> str) (d : directory) : list str :=
  sorted lower (matched d).

(** The bytes of the regular file [p] (none for any other entry). *)
Definition content (d : directory) (p : str) : bytes :=
  match lookup p d with
  | Some (File data) => data
  | _ => []
  end.

(** The text that reading a file of these bytes gives. *)
Definition text (data : bytes) : str :=
  match decoded data with
  | inr s => s
  | inl _ => []
  end.

(** What one iteration of the loop appends for a file of these bytes. *)
Definition block (data : bytes) : bytes :=
  Utf8.encode_bytes (text data) ++ [x0a] ++ repeat x2d 100 ++ [x0a].

(** What the loop appends for a list of files, up to the first one that
    cannot be opened, and the exception raised there. *)
Fixpoint blocks (d : directory) (files : list str) : bytes * option exn :=
  match files with
  | [] => ([], None)
  | p :: files' =>
      match lookup p d with
      | Some (File data) =>
          let (bs, e) := blocks d files' in (block data ++ bs, e)
      | Some Dir => ([], Some IsADirectoryError)
      | None => ([], Some FileNotFoundError)
      end
  end.

(** What the loop appends for files that are all regular files. *)
Definition written (d : directory) (files : list str) : bytes :=
  flat_map (fun p => block (content d p)) files.

Definition is_file (d : directory) (p : str) : Prop :=
  exists data, lookup p d = Some (File data).

(** ** Sample directories *)

Definition ascii_bytes (s : string) : bytes :=
  map byte_of_ascii (list_ascii_of_string s).

(** The directory of the specification's example, with the names as the
    specification writes them. *)
Definition spec_example : directory :=
  [(lit "a.CrudManager", File (ascii_bytes "class A {}"));
   (lit "B.CrudManager", File (ascii_bytes "class B {}"));
   (lit "c.txt", File (ascii_bytes "notes"))].

(** The same example with names that end as the script's pattern asks. *)
Definition java_example (a b c : bytes) : directory :=
  [(lit "a.CrudManager.java", File a);
   (lit "B.CrudManager.java", File b);
   (lit "c.txt", File c)].

(** A directory enumerated out of order, with an output file left by
    an earlier run, a file that holds the invalid byte 0xFF and a
    two-byte character and does not end with a newline, and a file with
    a Windows line ending. *)
Definition sample : directory :=
  [(lit "notes.txt", File (ascii_bytes "todo"));
   (lit "BCrudManager.java",
    File (ascii_bytes "b" ++ [xff; xc3; xa9] ++ ascii_bytes "!"));
   (lit "allCrudManagers.txt", File (ascii_bytes "stale"));
   (lit "aCrudManager.java", File (ascii_bytes "a" ++ [x0d; x0a]))].

Definition sample_result : directory := snd (main ascii_lower sample).

(** The example directory again, with contents, enumerated backwards. *)
Definition java_sample : directory :=
  rev (java_example (ascii_bytes "class A {}") (ascii_bytes "class B {}")
         (ascii_bytes "notes")).

(** ** Vocabulary for further properties of the run *)

(** The text that the loop writes for a list of regular files. *)
Definition written_text (d : directory) (files : list str) : str :=
  flat_map (fun p => text (content d p) ++ newline ++ separator) files.

(** An entry whose name the pattern matches. *)
Definition matching (e : str * node) : bool := fnmatch pattern (fst e).

(** An entry other than the output file. *)
Definition not_output (e : str * node) : bool :=
  negb (str_eqb (fst e) output_file).

(** A directory in which the output path is itself a directory. *)
Definition blocked_sample : directory :=
  [(lit "aCrudManager.java", File (ascii_bytes "a"));
   (lit "allCrudManagers.txt", Dir)].

(** A directory in which the second matched name, in sorted order, is a
    directory. *)
Definition partial_sample : directory :=
  [(lit "cCrudManager.java", File (ascii_bytes "c"));
   (lit "bCrudManager.java", Dir);
   (lit "ACrudManager.java", File (ascii_bytes "a"))].

(** Two names that differ in case only, and the same directory
    enumerated the other way round. *)
Definition tie_sample : directory :=
  [(lit "xCrudManager.java", File (ascii_bytes "lower"));
   (lit "XCrudManager.java", File (ascii_bytes "upper"))].

(** ** Decoding, byte by byte *)

(** A byte that starts no UTF-8 sequence: a continuation byte, [0xC0],
    [0xC1], or a byte above [0xF4]. *)
Definition invalid_start (b : byte) : bool :=
  ((0x80 <=? Byte.to_N b) && (Byte.to_N b <? 0xC2)) || (0xF5 <=? Byte.to_N b).

(** ** Symbolic links

    [glob] yields the name of a symbolic link like any other name, and
    [open] follows the link.  A [linked_directory] is a working
    directory, as line 8 finds it, in which a name is an entry of its
    own or a symbolic link to another name of the directory. *)
Inductive entry : Type :=
| Own (x : node)
| Symlink (target : str).

Definition linked_directory := list (str * entry).

Fixpoint find (name : str) (ld : linked_directory) : option entry :=
  match ld with
  | [] => None
  | (n, e) :: ld' => if str_eqb n name then Some e else find name ld'
  end.

(** The name of the file or directory that opening [name] reaches; the
    system follows [hops] links and gives up on a longer chain. *)
Fixpoint reach (hops : nat) (ld : linked_directory) (name : str)
  : option str :=
  match find name ld with
  | None => None
  | Some (Own _) => Some name
  | Some (Symlink target) =>
      match hops with
      | O => None
      | S hops' => reach hops' ld target
      end
  end.

Definition max_hops : nat := 40.

(** The names that line 8 hands to the loop. *)
Definition linked_inputs (lower : str -> str) (ld : linked_directory)
  : list str :=
  sorted lower (filter (fnmatch pattern) (map fst ld)).

(** What line 9 opens for reading, file after file. *)
Definition opened (lower : str -> str) (ld : linked_directory)
  : list (option str) :=
  map (reach max_hops ld) (linked_inputs lower ld).

(** A directory without links, as a [linked_directory]. *)
Definition own (d : directory) : linked_directory :=
  map (fun e => (fst e, Own (snd e))) d.

(** The output file and a matched name that is a symbolic link to it. *)
Definition linked_sample : linked_directory :=
  [(lit "allCrudManagers.txt", Own (File []));
   (lit "selfCrudManager.java", Symlink (lit "allCrudManagers.txt"))].

(** * Properties *)

(** ** Lists *)

Lemma list_length_ind {A : Type} (P : list A -> Prop) :
  (forall l, (forall l', (length l' < length l)%nat -> P l') -> P l) ->
  forall l, P l.
Proof.
  intros step l.
  enough (H : forall n l', (length l' < n)%nat -> P l')
    by (apply step; intros l' Hl; exact (H _ _ Hl)).
  induction n as [|n IHn]; intros l' Hl; [lia|].
  apply step. intros l'' Hl''. apply IHn. lia.
Qed.

Lemma subseq_nil_l {A : Type} (b : list A) : subseq [] b.
Proof. induction b; constructor; assumption. Qed.

Lemma subseq_refl {A : Type} (a : list A) : subseq a a.
Proof. induction a; constructor; assumption. Qed.

Lemma subseq_length {A : Type} (a b : list A) :
  subseq a b -> (length a <= length b)%nat.
Proof. induction 1; simpl; lia. Qed.

(** ** Booleans of [N] comparisons as propositions *)

Ltac to_prop :=
  repeat match goal with
  | H : negb _ = true |- _ => apply negb_true_iff in H
  | H : negb _ = false |- _ => apply negb_false_iff in H
  | H : (_ && _) = true |- _ => apply andb_true_iff in H; destruct H
  | H : (_ || _) = false |- _ => apply orb_false_iff in H; destruct H
  | H : (if ?c then _ else _) = _ |- _ => destruct c eqn:?
  | H : (_ <? _) = true |- _ => apply N.ltb_lt in H
  | H : (_ <? _) = false |- _ => apply N.ltb_ge in H
  | H : (_ <=? _) = true |- _ => apply N.leb_le in H
  | H : (_ <=? _) = false |- _ => apply N.leb_gt in H
  | H : (_ =? _) = true |- _ => apply N.eqb_eq in H
  | H : (_ =? _) = false |- _ => apply N.eqb_neq in H
  | H : (_ && _) = false |- _ => apply andb_false_iff in H; destruct H
  | H : (_ || _) = true |- _ => apply orb_true_iff in H; destruct H
  end.

(** ** UTF-8 *)

Module Utf8Facts.
Import Utf8.

Lemma shiftl_6 (n : N) : N.shiftl n 6 = n * 64.
Proof. rewrite N.shiftl_mul_pow2. reflexivity. Qed.

Lemma shiftl_12 (n : N) : N.shiftl n 12 = n * 4096.
Proof. rewrite N.shiftl_mul_pow2. reflexivity. Qed.

Lemma shiftl_18 (n : N) : N.shiftl n 18 = n * 262144.
Proof. rewrite N.shiftl_mul_pow2. reflexivity. Qed.

(** The case analysis of one decoding step. *)
Ltac decode_cases :=
  repeat match goal with
  | |- context [if ?c then _ else _] => destruct c eqn:?
  | |- context [match ?r with [] => _ | _ :: _ => _ end] =>
      is_var r; destruct r
  end.

Ltac unshift := rewrite ?shiftl_6, ?shiftl_12, ?shiftl_18 in *.


(** *** Bit operations of the encoder, as arithmetic *)

Lemma lor_small (x : N) :
  x < 64 ->
  N.lor 0x80 x = 0x80 + x
  /\ (x < 32 -> N.lor 0xC0 x = 0xC0 + x)
  /\ (x < 16 -> N.lor 0xE0 x = 0xE0 + x)
  /\ (x < 8 -> N.lor 0xF0 x = 0xF0 + x).
Proof.
  intros Hx.
  destruct x as [|p]; [repeat split; reflexivity|].
  do 7 (try (destruct p as [p|p|]));
    try (exfalso; lia);
    repeat split; intros; try reflexivity; exfalso; lia.
Qed.

Lemma shiftr_6 (x y : N) : y < 64 -> N.shiftr (x * 64 + y) 6 = x.
Proof.
  intros Hy. rewrite N.shiftr_div_pow2. change (2 ^ 6) with 64.
  symmetry. apply (N.div_unique _ 64 x y); lia.
Qed.

Lemma land_3F (x y : N) : y < 64 -> N.land (x * 64 + y) 0x3F = y.
Proof.
  intros Hy. change 0x3F with (N.ones 6). rewrite N.land_ones.
  change (2 ^ 6) with 64.
  symmetry. apply (N.mod_unique _ 64 x y); lia.
Qed.

Lemma byte_of_to_N (b : byte) : byte_of_N (Byte.to_N b) = b.
Proof. unfold byte_of_N. rewrite Byte.of_to_N. reflexivity. Qed.

Lemma byte_of_N_eq (b : byte) (n : N) : n = Byte.to_N b -> byte_of_N n = b.
Proof. intros ->. apply byte_of_to_N. Qed.

Lemma to_N_byte_of_N (n : N) : n < 256 -> Byte.to_N (byte_of_N n) = n.
Proof.
  intros Hn. unfold byte_of_N.
  destruct (Byte.of_N n) as [b|] eqn:E.
  - apply Byte.to_of_N. exact E.
  - apply Byte.of_N_None_iff in E. lia.
Qed.


Lemma shiftr_12 (x y z : N) :
  y < 64 -> z < 64 -> N.shiftr ((x * 64 + y) * 64 + z) 12 = x.
Proof.
  intros Hy Hz. change 12 with (6 + 6). rewrite <- N.shiftr_shiftr.
  rewrite !shiftr_6 by assumption. reflexivity.
Qed.

Lemma shiftr_18 (x y z w : N) :
  y < 64 -> z < 64 -> w < 64 ->
  N.shiftr (((x * 64 + y) * 64 + z) * 64 + w) 18 = x.
Proof.
  intros Hy Hz Hw. change 18 with (6 + 12). rewrite <- N.shiftr_shiftr.
  rewrite shiftr_6 by assumption. apply shiftr_12; assumption.
Qed.

Lemma shiftr_12' (x y z w : N) :
  y < 64 -> z < 64 -> w < 64 ->
  N.shiftr (((x * 64 + y) * 64 + z) * 64 + w) 12 = x * 64 + y.
Proof.
  intros Hy Hz Hw. change 12 with (6 + 6). rewrite <- N.shiftr_shiftr.
  rewrite !shiftr_6 by assumption. reflexivity.
Qed.

Lemma is_scalar_intro (c : N) :
  c < 0x110000 -> c < 0xD800 \/ 0xDFFF < c -> is_scalar c = true.
Proof.
  intros Hc Hs. unfold is_scalar, is_surrogate.
  apply andb_true_iff. split; [apply N.ltb_lt; exact Hc|].
  apply negb_true_iff, andb_false_iff.
  destruct Hs; [left; apply N.leb_gt|right; apply N.leb_gt]; assumption.
Qed.

Lemma is_scalar_not_surrogate (c : N) :
  is_scalar c = true -> is_surrogate c = false.
Proof.
  unfold is_scalar. intros H. apply andb_true_iff in H.
  destruct H as [_ H]. apply negb_true_iff in H. exact H.
Qed.

Ltac not_below c n := rewrite (proj2 (N.ltb_ge c n)) by lia.
Ltac below c n := rewrite (proj2 (N.ltb_lt c n)) by lia.

(** *** Well-formed sequences: what the decoder accepts is what the
    encoder writes *)

Lemma encode_1 (b1 : byte) :
  Byte.to_N b1 < 0x80 ->
  is_scalar (Byte.to_N b1) = true /\ encode_cp (Byte.to_N b1) = [b1].
Proof.
  intros H. split; [apply is_scalar_intro; lia|].
  unfold encode_cp. below (Byte.to_N b1) 0x80.
  rewrite byte_of_to_N. reflexivity.
Qed.

Lemma encode_2 (b1 b2 : byte) (c : N) :
  0xC2 <= Byte.to_N b1 < 0xE0 -> 0x80 <= Byte.to_N b2 < 0xC0 ->
  c = N.shiftl (Byte.to_N b1) 6 + Byte.to_N b2 - (N.shiftl 0xC0 6 + 0x80) ->
  is_scalar c = true /\ encode_cp c = [b1; b2].
Proof.
  set (ch := Byte.to_N b1). set (ch2 := Byte.to_N b2).
  intros H1 H2 Hc. unshift.
  assert (E : c = (ch - 0xC0) * 64 + (ch2 - 0x80)) by lia.
  split; [apply is_scalar_intro; lia|].
  unfold encode_cp. not_below c 0x80. below c 0x800.
  rewrite E, shiftr_6, land_3F by lia.
  rewrite (proj1 (lor_small (ch2 - 0x80) ltac:(lia))).
  rewrite (proj1 (proj2 (lor_small (ch - 0xC0) ltac:(lia)))) by lia.
  repeat f_equal; apply byte_of_N_eq; lia.
Qed.

Lemma encode_3 (b1 b2 b3 : byte) (c : N) :
  0xE0 <= Byte.to_N b1 < 0xF0 ->
  0x80 <= Byte.to_N b2 < 0xC0 -> 0x80 <= Byte.to_N b3 < 0xC0 ->
  (Byte.to_N b1 = 0xE0 -> 0xA0 <= Byte.to_N b2) ->
  (Byte.to_N b1 = 0xED -> Byte.to_N b2 < 0xA0) ->
  c = N.shiftl (Byte.to_N b1) 12 + N.shiftl (Byte.to_N b2) 6 + Byte.to_N b3
      - (N.shiftl 0xE0 12 + N.shiftl 0x80 6 + 0x80) ->
  is_scalar c = true /\ encode_cp c = [b1; b2; b3].
Proof.
  set (ch := Byte.to_N b1). set (ch2 := Byte.to_N b2).
  set (ch3 := Byte.to_N b3).
  intros H1 H2 H3 Hlo Hsur Hc. unshift.
  assert (E : c = ((ch - 0xE0) * 64 + (ch2 - 0x80)) * 64 + (ch3 - 0x80))
    by lia.
  split; [apply is_scalar_intro; lia|].
  unfold encode_cp. not_below c 0x80. not_below c 0x800. below c 0x10000.
  rewrite E, shiftr_12, shiftr_6, !land_3F by lia.
  rewrite (proj1 (lor_small (ch3 - 0x80) ltac:(lia))).
  rewrite (proj1 (lor_small (ch2 - 0x80) ltac:(lia))).
  rewrite (proj1 (proj2 (proj2 (lor_small (ch - 0xE0) ltac:(lia))))) by lia.
  repeat f_equal; apply byte_of_N_eq; lia.
Qed.

Lemma encode_4 (b1 b2 b3 b4 : byte) (c : N) :
  0xF0 <= Byte.to_N b1 < 0xF5 ->
  0x80 <= Byte.to_N b2 < 0xC0 -> 0x80 <= Byte.to_N b3 < 0xC0 ->
  0x80 <= Byte.to_N b4 < 0xC0 ->
  (Byte.to_N b1 = 0xF0 -> 0x90 <= Byte.to_N b2) ->
  (Byte.to_N b1 = 0xF4 -> Byte.to_N b2 < 0x90) ->
  c = N.shiftl (Byte.to_N b1) 18 + N.shiftl (Byte.to_N b2) 12
      + N.shiftl (Byte.to_N b3) 6 + Byte.to_N b4
      - (N.shiftl 0xF0 18 + N.shiftl 0x80 12 + N.shiftl 0x80 6 + 0x80) ->
  is_scalar c = true /\ encode_cp c = [b1; b2; b3; b4].
Proof.
  set (ch := Byte.to_N b1). set (ch2 := Byte.to_N b2).
  set (ch3 := Byte.to_N b3). set (ch4 := Byte.to_N b4).
  intros H1 H2 H3 H4 Hlo Hhi Hc. unshift.
  assert (E : c = (((ch - 0xF0) * 64 + (ch2 - 0x80)) * 64 + (ch3 - 0x80))
                  * 64 + (ch4 - 0x80)) by lia.
  split; [apply is_scalar_intro; lia|].
  unfold encode_cp.
  not_below c 0x80. not_below c 0x800. not_below c 0x10000.
  rewrite E, shiftr_18, shiftr_12', shiftr_6, !land_3F by lia.
  rewrite (proj1 (lor_small (ch4 - 0x80) ltac:(lia))).
  rewrite (proj1 (lor_small (ch3 - 0x80) ltac:(lia))).
  rewrite (proj1 (lor_small (ch2 - 0x80) ltac:(lia))).
  rewrite (proj2 (proj2 (proj2 (lor_small (ch - 0xF0) ltac:(lia))))) by lia.
  repeat f_equal; apply byte_of_N_eq; lia.
Qed.

Lemma emit_inr (c : N) (k : except str) (s : str) :
  emit c k = inr s -> exists s', k = inr s' /\ s = c :: s'.
Proof.
  destruct k as [e|s']; simpl; intros H; [discriminate|].
  injection H as <-. eexists; split; reflexivity.
Qed.

Lemma on_error_inr (h : errors) (k : except str) (s : str) :
  on_error h k = inr s -> h = Ignore /\ k = inr s.
Proof. destruct h; simpl; intros H; [discriminate|split; trivial]. Qed.

Lemma on_truncated_inr (h : errors) (s : str) :
  on_truncated h = inr s -> h = Ignore /\ s = [].
Proof.
  unfold on_truncated. intros H. apply on_error_inr in H.
  destruct H as [-> H]. injection H as <-. split; reflexivity.
Qed.

(** One accepted sequence at the head of the input. *)
Ltac use_sequence P :=
  let Hs := fresh "Hs" in
  let He := fresh "He" in
  destruct P as [Hs He];
  [try lia; try reflexivity ..
  |rewrite <- He; apply decodes_char; [exact Hs|]].

Ltac accepted :=
  match goal with
  | |- decodes _ (?b1 :: ?b2 :: ?b3 :: ?b4 :: ?r) (?c :: _) =>
      change (b1 :: b2 :: b3 :: b4 :: r) with ([b1; b2; b3; b4] ++ r);
      use_sequence (encode_4 b1 b2 b3 b4 c)
  | |- decodes _ (?b1 :: ?b2 :: ?b3 :: ?r) (?c :: _) =>
      change (b1 :: b2 :: b3 :: r) with ([b1; b2; b3] ++ r);
      use_sequence (encode_3 b1 b2 b3 c)
  | |- decodes _ (?b1 :: ?b2 :: ?r) (?c :: _) =>
      change (b1 :: b2 :: r) with ([b1; b2] ++ r);
      use_sequence (encode_2 b1 b2 c)
  | |- decodes _ (?b1 :: ?r) (?c :: _) =>
      change (b1 :: r) with ([b1] ++ r);
      use_sequence (encode_1 b1)
  end.

Lemma decode_decodes (h : errors) (bs : bytes) (s : str) :
  decode h bs = inr s -> decodes h bs s.
Proof.
  revert s. induction bs as [bs IH] using list_length_ind. intros s.
  destruct bs as [|b1 r1];
    [simpl; intros H; injection H as <-; constructor|].
  cbn [decode]. unfold is_continuation.
  decode_cases; intros H;
    try (apply on_truncated_inr in H; destruct H as [-> ->];
         repeat constructor; fail);
    try (apply on_error_inr in H; destruct H as [-> H];
         repeat first [ solve [apply IH; [simpl; lia | exact H]]
                      | apply decodes_skip ]; fail);
    apply emit_inr in H; destruct H as (s' & H & ->);
    to_prop; accepted; (apply IH; [simpl; lia|exact H]).
Qed.


(** *** Consequences *)

Lemma subseq_app_l {A : Type} (p a b : list A) :
  subseq a b -> subseq (p ++ a) (p ++ b).
Proof. intros H. induction p; simpl; [exact H|constructor; exact IHp]. Qed.

Lemma decodes_scalar (h : errors) (bs : bytes) (s : str) :
  decodes h bs s -> Forall (fun c => is_scalar c = true) s.
Proof. induction 1; [constructor|constructor; assumption|assumption]. Qed.

Lemma decodes_subseq (h : errors) (bs : bytes) (s : str) :
  decodes h bs s -> subseq (encode_bytes s) bs.
Proof.
  induction 1; simpl.
  - constructor.
  - apply subseq_app_l. assumption.
  - constructor. assumption.
Qed.

Lemma decodes_strict (bs : bytes) (s : str) :
  decodes Strict bs s -> encode_bytes s = bs.
Proof.
  intros H. remember Strict as h eqn:Eh.
  induction H; simpl; [reflexivity| |discriminate].
  rewrite IHdecodes by assumption. reflexivity.
Qed.

Lemma no_surrogate (s : str) :
  Forall (fun c => is_scalar c = true) s -> existsb is_surrogate s = false.
Proof.
  induction 1 as [|c s Hc _ IH]; simpl; [reflexivity|].
  rewrite (is_scalar_not_surrogate c Hc), IH. reflexivity.
Qed.

(** The strict encoder accepts every decoded text. *)
Lemma encode_scalar (s : str) :
  Forall (fun c => is_scalar c = true) s -> encode s = inr (encode_bytes s).
Proof. intros H. unfold encode. rewrite (no_surrogate s H). reflexivity. Qed.

(** *** Round trip: the decoder reads back what the encoder wrote *)

Lemma split_64 (c : N) : exists x y, c = x * 64 + y /\ y < 64.
Proof.
  exists (c / 64), (c mod 64). split.
  - rewrite N.mul_comm. apply N.div_mod. discriminate.
  - apply N.mod_lt. discriminate.
Qed.

Ltac eval_ifs :=
  repeat match goal with
  | |- context [if ?c then _ else _] =>
      destruct c eqn:?; to_prop; try (exfalso; lia)
  end.

Lemma decode_encode_cp (h : errors) (c : N) (r : bytes) :
  is_scalar c = true ->
  decode h (encode_cp c ++ r) = emit c (decode h r).
Proof.
  unfold is_scalar, is_surrogate. intros Hs. to_prop.
  - unfold encode_cp.
    destruct (c <? 0x80) eqn:E1;
      [|destruct (c <? 0x800) eqn:E2]; to_prop.
    + cbn [app decode]. rewrite to_N_byte_of_N by lia.
      below c 0x80. reflexivity.
    + destruct (split_64 c) as (x & y & -> & Hy).
      rewrite shiftr_6, land_3F by lia.
      rewrite (proj1 (lor_small y ltac:(lia))).
      rewrite (proj1 (proj2 (lor_small x ltac:(lia)))) by lia.
      cbn [app decode]. rewrite !to_N_byte_of_N by lia.
      unfold is_continuation. eval_ifs; f_equal; unshift; lia.
    + destruct (split_64 c) as (q & z & -> & Hz).
      destruct (split_64 q) as (x & y & -> & Hy).
      below ((x * 64 + y) * 64 + z) 0x10000.
      rewrite shiftr_12, shiftr_6, !land_3F by lia.
      rewrite (proj1 (lor_small z ltac:(lia))).
      rewrite (proj1 (lor_small y ltac:(lia))).
      rewrite (proj1 (proj2 (proj2 (lor_small x ltac:(lia))))) by lia.
      cbn [app decode]. rewrite !to_N_byte_of_N by lia.
      unfold is_continuation. eval_ifs; f_equal; unshift; lia.
  - unfold encode_cp.
    not_below c 0x80. not_below c 0x800.
    destruct (c <? 0x10000) eqn:E3; to_prop.
    + destruct (split_64 c) as (q & z & -> & Hz).
      destruct (split_64 q) as (x & y & -> & Hy).
      rewrite shiftr_12, shiftr_6, !land_3F by lia.
      rewrite (proj1 (lor_small z ltac:(lia))).
      rewrite (proj1 (lor_small y ltac:(lia))).
      rewrite (proj1 (proj2 (proj2 (lor_small x ltac:(lia))))) by lia.
      cbn [app decode]. rewrite !to_N_byte_of_N by lia.
      unfold is_continuation. eval_ifs; f_equal; unshift; lia.
    + destruct (split_64 c) as (q & w & -> & Hw).
      destruct (split_64 q) as (q' & z & -> & Hz).
      destruct (split_64 q') as (x & y & -> & Hy).
      rewrite shiftr_18, shiftr_12', shiftr_6, !land_3F by lia.
      rewrite (proj1 (lor_small w ltac:(lia))).
      rewrite (proj1 (lor_small z ltac:(lia))).
      rewrite (proj1 (lor_small y ltac:(lia))).
      rewrite (proj2 (proj2 (proj2 (lor_small x ltac:(lia))))) by lia.
      cbn [app decode]. rewrite !to_N_byte_of_N by lia.
      unfold is_continuation. eval_ifs; f_equal; unshift; lia.
Qed.

Lemma decode_encode (h : errors) (s : str) :
  Forall (fun c => is_scalar c = true) s ->
  decode h (encode_bytes s) = inr s.
Proof.
  induction 1 as [|c s Hc _ IH]; [reflexivity|].
  simpl. rewrite decode_encode_cp by exact Hc. rewrite IH. reflexivity.
Qed.

(** Where the strict decoder returns, [errors="ignore"] changes
    nothing. *)
Lemma decode_strict_ignore (bs : bytes) (s : str) :
  decode Strict bs = inr s -> decode Ignore bs = inr s.
Proof.
  intros H. apply decode_decodes in H.
  rewrite <- (decodes_strict bs s H).
  apply decode_encode. exact (decodes_scalar _ _ _ H).
Qed.

(** With [errors="ignore"] the decoder returns on every input. *)
Lemma decode_ignore_total (bs : bytes) :
  exists s, decode Ignore bs = inr s.
Proof.
  induction bs as [bs IH] using list_length_ind.
  assert (IH1 : forall b r, bs = b :: r -> exists s, decode Ignore r = inr s)
    by (intros b r ->; apply IH; simpl; lia).
  assert (IHe : forall c r, (length r < length bs)%nat ->
                  exists s, emit c (decode Ignore r) = inr s).
  { intros c r Hr. destruct (IH r Hr) as [s ->]. eexists; reflexivity. }
  destruct bs as [|b1 r1]; [eexists; reflexivity|].
  cbn [decode on_error on_truncated].
  decode_cases;
    try (eexists; reflexivity);
    try (apply IHe; simpl; lia);
    try (apply IH; simpl; lia).
Qed.

End Utf8Facts.

(** ** Text *)

Lemma universal_newlines_Forall (P : N -> Prop) (s : str) :
  P 10 -> Forall P s -> Forall P (universal_newlines s).
Proof.
  intros H10. induction s as [s IH] using list_length_ind. intros Hs.
  destruct s as [|c r]; [constructor|].
  inversion Hs as [|? ? Hc Hr]; subst.
  cbn [universal_newlines].
  destruct (c =? 13).
  - constructor; [exact H10|].
    destruct r as [|c2 r2]; [constructor|].
    destruct (c2 =? 10).
    + apply IH; [simpl; lia|]. inversion Hr; assumption.
    + apply IH; [simpl; lia|exact Hr].
  - constructor; [exact Hc|]. apply IH; [simpl; lia|exact Hr].
Qed.

(** Reading never raises, and what it returns the strict encoder
    accepts. *)
Lemma decoded_text (data : bytes) :
  decoded data = inr (text data)
  /\ Forall (fun c => Utf8.is_scalar c = true) (text data).
Proof.
  unfold text, decoded.
  destruct (Utf8Facts.decode_ignore_total data) as [s Hs]. rewrite Hs.
  split; [reflexivity|].
  apply universal_newlines_Forall; [reflexivity|].
  apply Utf8Facts.decode_decodes in Hs.
  exact (Utf8Facts.decodes_scalar _ _ _ Hs).
Qed.

(** ** The order on [str] *)

Lemma str_ltb_irrefl (a : str) : str_ltb a a = false.
Proof.
  induction a as [|x a IH]; [reflexivity|].
  simpl. rewrite N.ltb_irrefl. exact IH.
Qed.

Lemma str_ltb_asym (a b : str) : str_ltb a b = true -> str_ltb b a = false.
Proof.
  revert b. induction a as [|x a IH]; intros [|y b]; simpl;
    try discriminate; try reflexivity.
  destruct (N.ltb_spec x y), (N.ltb_spec y x); try lia;
    try discriminate; try reflexivity.
  apply IH.
Qed.

Lemma str_ltb_cotrans (a b c : str) :
  str_ltb a c = true -> str_ltb a b = true \/ str_ltb b c = true.
Proof.
  revert b c. induction a as [|x a IH]; intros [|y b] [|z c]; simpl;
    try discriminate; auto.
  destruct (N.ltb_spec x z), (N.ltb_spec z x), (N.ltb_spec x y),
    (N.ltb_spec y x), (N.ltb_spec y z), (N.ltb_spec z y);
    try lia; try discriminate; auto.
Qed.

Lemma str_ltb_total (a b : str) :
  str_ltb a b = false -> str_ltb b a = false -> a = b.
Proof.
  revert b. induction a as [|x a IH]; intros [|y b]; simpl;
    try discriminate; try reflexivity.
  destruct (N.ltb_spec x y), (N.ltb_spec y x); try lia;
    try discriminate.
  intros Hab Hba. assert (x = y) by lia. subst y.
  rewrite (IH b Hab Hba). reflexivity.
Qed.

Lemma str_eqb_eq (a b : str) : str_eqb a b = true <-> a = b.
Proof.
  unfold str_eqb. destruct (list_eq_dec N.eq_dec a b); split;
    congruence.
Qed.

Lemma str_eqb_refl (a : str) : str_eqb a a = true.
Proof. apply str_eqb_eq. reflexivity. Qed.

Lemma str_eqb_neq (a b : str) : a <> b -> str_eqb a b = false.
Proof.
  intros H. destruct (str_eqb a b) eqn:E; [|reflexivity].
  apply str_eqb_eq in E. contradiction.
Qed.

(** ** [sorted] *)

Section SortedFacts.

Context {A : Type}.
Variable key : A -> str.

Lemma key_le_trans (x y z : A) :
  key_le key x y -> key_le key y z -> key_le key x z.
Proof.
  unfold key_le. intros Hxy Hyz.
  destruct (str_ltb (key z) (key x)) eqn:E; [|reflexivity].
  destruct (str_ltb_cotrans _ (key y) _ E); congruence.
Qed.

Lemma insert_perm (x : A) (l : list A) : Permutation (insert key x l) (x :: l).
Proof.
  induction l as [|y l IH]; simpl; [reflexivity|].
  destruct (str_ltb (key y) (key x)); [|reflexivity].
  rewrite IH. apply perm_swap.
Qed.

Lemma sorted_perm (l : list A) : Permutation (sorted key l) l.
Proof.
  induction l as [|x l IH]; simpl; [reflexivity|].
  rewrite insert_perm. constructor. exact IH.
Qed.

Lemma sorted_In (x : A) (l : list A) : In x (sorted key l) <-> In x l.
Proof.
  split; apply Permutation_in;
    [apply sorted_perm|symmetry; apply sorted_perm].
Qed.

Lemma insert_sorted (x : A) (l : list A) :
  StronglySorted (key_le key) l -> StronglySorted (key_le key) (insert key x l).
Proof.
  induction 1 as [|y l Hl IH Hy]; simpl; [repeat constructor|].
  destruct (str_ltb (key y) (key x)) eqn:E.
  - constructor; [exact IH|].
    apply Forall_forall. intros z Hz.
    apply (Permutation_in _ (insert_perm x l)) in Hz.
    destruct Hz as [<-|Hz].
    + apply str_ltb_asym. exact E.
    + rewrite Forall_forall in Hy. apply Hy. exact Hz.
  - constructor; [constructor; assumption|].
    constructor; [exact E|].
    apply Forall_forall. intros z Hz.
    rewrite Forall_forall in Hy.
    apply (key_le_trans x y z); [exact E|apply Hy; exact Hz].
Qed.

(** The result ascends in the keys. *)
Lemma sorted_sorted (l : list A) : StronglySorted (key_le key) (sorted key l).
Proof.
  induction l as [|x l IH]; simpl; [constructor|].
  apply insert_sorted. exact IH.
Qed.

(** The sort is stable: the elements of one key keep their order. *)
Lemma insert_filter (k : str) (x : A) (l : list A) :
  filter (fun y => str_eqb (key y) k) (insert key x l)
  = filter (fun y => str_eqb (key y) k) (x :: l).
Proof.
  induction l as [|y l IH]; [reflexivity|].
  cbn [insert]. destruct (str_ltb (key y) (key x)) eqn:E; [|reflexivity].
  cbn [filter] in *. rewrite IH.
  destruct (str_eqb (key x) k) eqn:Ex; [|reflexivity].
  destruct (str_eqb (key y) k) eqn:Ey; [|reflexivity].
  apply str_eqb_eq in Ex, Ey. rewrite Ex, Ey, str_ltb_irrefl in E.
  discriminate.
Qed.

Lemma sorted_stable (k : str) (l : list A) :
  filter (fun y => str_eqb (key y) k) (sorted key l)
  = filter (fun y => str_eqb (key y) k) l.
Proof.
  induction l as [|x l IH]; [reflexivity|].
  cbn [sorted fold_right]. fold (sorted key l).
  rewrite insert_filter. cbn [filter]. rewrite IH. reflexivity.
Qed.

Lemma filter_key_nil (l : list A) :
  (forall k, filter (fun y => str_eqb (key y) k) l = []) -> l = [].
Proof.
  destruct l as [|x l]; [reflexivity|]. intros H.
  specialize (H (key x)). cbn [filter] in H.
  rewrite str_eqb_refl in H. discriminate H.
Qed.

Lemma sorted_head_le (x : A) (l : list A) (z : A) :
  StronglySorted (key_le key) (x :: l) -> In z (x :: l) -> key_le key x z.
Proof.
  intros Hs Hz. inversion Hs as [|? ? _ Hx]; subst.
  destruct Hz as [<-|Hz].
  - apply str_ltb_irrefl.
  - rewrite Forall_forall in Hx. apply Hx. exact Hz.
Qed.

Lemma filter_key_In (k : str) (l : list A) (x : A) :
  In x (filter (fun y => str_eqb (key y) k) l) -> In x l /\ key x = k.
Proof.
  intros H. apply filter_In in H. destruct H as [Hin Hk].
  apply str_eqb_eq in Hk. split; assumption.
Qed.

(** Ascending order and stability fix the result: every ascending list
    that keeps, key by key, the elements of [l] in their order is
    [sorted key l], whatever the algorithm that built it. *)
Lemma stable_sort_unique (l1 l2 : list A) :
  StronglySorted (key_le key) l1 ->
  StronglySorted (key_le key) l2 ->
  (forall k, filter (fun y => str_eqb (key y) k) l1
             = filter (fun y => str_eqb (key y) k) l2) ->
  l1 = l2.
Proof.
  revert l2. induction l1 as [|x l1 IH]; intros l2 H1 H2 Hf.
  - symmetry. apply filter_key_nil. intros k. rewrite <- Hf. reflexivity.
  - destruct l2 as [|y l2].
    + apply filter_key_nil. intros k. rewrite Hf. reflexivity.
    + assert (Hxy : key x = key y).
      { symmetry. apply str_ltb_total.
        - assert (Hin : In y (x :: l1)).
          { pose proof (Hf (key y)) as E. cbn [filter] in E.
            rewrite (str_eqb_refl (key y)) in E.
            assert (Hy : In y (filter (fun z => str_eqb (key z) (key y))
                                 (x :: l1)))
              by (cbn [filter]; rewrite E; left; reflexivity).
            apply filter_key_In in Hy. apply Hy. }
          exact (sorted_head_le x l1 y H1 Hin).
        - assert (Hin : In x (y :: l2)).
          { pose proof (Hf (key x)) as E. cbn [filter] in E.
            rewrite (str_eqb_refl (key x)) in E.
            assert (Hx : In x (filter (fun z => str_eqb (key z) (key x))
                                 (y :: l2)))
              by (cbn [filter]; rewrite <- E; left; reflexivity).
            apply filter_key_In in Hx. apply Hx. }
          exact (sorted_head_le y l2 x H2 Hin). }
      assert (Hhead : x = y).
      { pose proof (Hf (key x)) as E. cbn [filter] in E.
        rewrite <- Hxy, str_eqb_refl in E. injection E as E _. exact E. }
      subst y. f_equal.
      inversion H1; inversion H2; subst.
      apply IH; try assumption.
      intros k. pose proof (Hf k) as E. cbn [filter] in E.
      destruct (str_eqb (key x) k); [injection E as E|]; exact E.
Qed.

(** [sorted] is that list. *)
Lemma sorted_unique (l l' : list A) :
  StronglySorted (key_le key) l' ->
  (forall k, filter (fun y => str_eqb (key y) k) l'
             = filter (fun y => str_eqb (key y) k) l) ->
  l' = sorted key l.
Proof.
  intros Hs Hf. apply stable_sort_unique; [exact Hs|apply sorted_sorted|].
  intros k. rewrite Hf, sorted_stable. reflexivity.
Qed.

Lemma sorted_before (l1 l2 : list A) (x y : A) :
  StronglySorted (key_le key) (l1 ++ x :: l2) -> In y l1 -> key_le key y x.
Proof.
  induction l1 as [|z l1 IH]; intros Hs Hy; [destruct Hy|].
  simpl in Hs. inversion Hs as [|? ? Hs' Hz]; subst.
  destruct Hy as [<-|Hy].
  - rewrite Forall_forall in Hz. apply Hz.
    apply in_or_app. right. left. reflexivity.
  - apply IH; assumption.
Qed.

(** Of two elements of the list, the one with the lower key comes first
    in the result, and the other does not occur before it. *)
Lemma sorted_order (l : list A) (x y : A) :
  In x l -> In y l -> str_ltb (key x) (key y) = true ->
  exists l1 l2 l3,
    sorted key l = l1 ++ x :: l2 ++ y :: l3 /\ ~ In y l1.
Proof.
  intros Hx Hy Hlt.
  pose proof (sorted_sorted l) as Hs.
  apply sorted_In in Hx, Hy.
  destruct (in_split _ _ Hx) as (l1 & r & E).
  rewrite E in Hs, Hy.
  assert (Hn : ~ In y l1).
  { intros Hin. pose proof (sorted_before _ _ _ _ Hs Hin) as Hle.
    unfold key_le in Hle. congruence. }
  apply in_app_or in Hy. destruct Hy as [Hy|[Hy|Hy]].
  - contradiction.
  - subst y. rewrite str_ltb_irrefl in Hlt. discriminate.
  - destruct (in_split _ _ Hy) as (l2 & l3 & ->).
    exists l1, l2, l3. split; assumption.
Qed.

End SortedFacts.

(** ** [fnmatch] *)

Lemma fnmatch_star_eq (q name : str) :
  fnmatch (42 :: q) name
  = fnmatch q name
    || match name with
       | [] => false
       | _ :: name' => fnmatch (42 :: q) name'
       end.
Proof. destruct name; reflexivity. Qed.

Lemma fnmatch_char_eq (p : N) (q name : str) :
  p <> 42 ->
  fnmatch (p :: q) name
  = match name with
    | [] => false
    | c :: name' => ((p =? 63) || (c =? p)) && fnmatch q name'
    end.
Proof.
  intros Hp. cbn [fnmatch].
  rewrite (proj2 (N.eqb_neq p 42) Hp). reflexivity.
Qed.

(** A leading [*] matches any prefix. *)
Lemma fnmatch_star (q name : str) :
  fnmatch (42 :: q) name = true
  <-> exists pre suf, name = pre ++ suf /\ fnmatch q suf = true.
Proof.
  induction name as [|c name IH]; rewrite fnmatch_star_eq.
  - rewrite orb_false_r. split.
    + intros H. exists [], []. split; [reflexivity|exact H].
    + intros (pre & suf & E & H). symmetry in E.
      apply app_eq_nil in E. destruct E as [_ ->]. exact H.
  - rewrite orb_true_iff, IH. split.
    + intros [H|(pre & suf & -> & H)].
      * exists [], (c :: name). split; [reflexivity|exact H].
      * exists (c :: pre), suf. split; [reflexivity|exact H].
    + intros (pre & suf & E & H). destruct pre as [|c' pre].
      * left. simpl in E. rewrite E. exact H.
      * right. injection E as -> ->. exists pre, suf.
        split; [reflexivity|exact H].
Qed.

(** A pattern without [*] and [?] matches itself only. *)
Lemma fnmatch_literal (q : str) :
  Forall (fun p => p <> 42 /\ p <> 63) q ->
  forall name, fnmatch q name = true <-> name = q.
Proof.
  induction 1 as [|p q [Hstar Hany] _ IH]; intros name.
  - destruct name; simpl; split; congruence.
  - rewrite fnmatch_char_eq by exact Hstar.
    destruct name as [|c name]; [split; discriminate|].
    rewrite (proj2 (N.eqb_neq p 63) Hany), orb_false_l, andb_true_iff.
    rewrite N.eqb_eq, IH. split.
    + intros [-> ->]. reflexivity.
    + intros E. injection E as -> ->. split; reflexivity.
Qed.

Lemma suffix_literal :
  Forall (fun p => p <> 42 /\ p <> 63) (lit "CrudManager.java").
Proof.
  apply Forall_forall. intros p Hp.
  vm_compute in Hp.
  repeat (destruct Hp as [<-|Hp]; [split; discriminate|]).
  destruct Hp.
Qed.

(** The script's pattern matches the names that end with
    [CrudManager.java], letter for letter. *)
Lemma fnmatch_pattern (name : str) :
  fnmatch pattern name = true
  <-> exists pre, name = pre ++ lit "CrudManager.java".
Proof.
  change pattern with (42 :: lit "CrudManager.java").
  rewrite fnmatch_star. split.
  - intros (pre & suf & -> & H).
    apply (fnmatch_literal _ suffix_literal) in H. subst suf.
    exists pre. reflexivity.
  - intros (pre & ->). exists pre, (lit "CrudManager.java").
    split; [reflexivity|].
    apply (fnmatch_literal _ suffix_literal). reflexivity.
Qed.

Lemma output_file_unmatched : fnmatch pattern output_file = false.
Proof. vm_compute. reflexivity. Qed.

Lemma matched_not_output (p : str) :
  fnmatch pattern p = true -> p <> output_file.
Proof.
  intros H ->. rewrite output_file_unmatched in H. discriminate.
Qed.

(** ** The directory *)

Lemma lookup_store_same (p : str) (x : bytes) (d : directory) :
  lookup p (store p x d) = Some (File x).
Proof.
  induction d as [|[n y] d IH]; simpl.
  - rewrite str_eqb_refl. reflexivity.
  - destruct (str_eqb n p) eqn:E; simpl; rewrite E; [reflexivity|exact IH].
Qed.

Lemma lookup_store_other (p q : str) (x : bytes) (d : directory) :
  q <> p -> lookup q (store p x d) = lookup q d.
Proof.
  intros Hq. induction d as [|[n y] d IH]; simpl.
  - rewrite str_eqb_neq by congruence. reflexivity.
  - destruct (str_eqb n p) eqn:E; simpl.
    + apply str_eqb_eq in E. subst n.
      rewrite str_eqb_neq by congruence. reflexivity.
    + rewrite IH. reflexivity.
Qed.

Lemma store_store (p : str) (x y : bytes) (d : directory) :
  store p y (store p x d) = store p y d.
Proof.
  induction d as [|[n z] d IH]; simpl.
  - rewrite str_eqb_refl. reflexivity.
  - destruct (str_eqb n p) eqn:E; simpl; rewrite E; [reflexivity|].
    rewrite IH. reflexivity.
Qed.

Lemma store_lookup (p : str) (x : bytes) (d : directory) :
  lookup p d = Some (File x) -> store p x d = d.
Proof.
  induction d as [|[n y] d IH]; simpl; [discriminate|].
  destruct (str_eqb n p) eqn:E.
  - intros H. injection H as ->. reflexivity.
  - intros H. rewrite IH by exact H. reflexivity.
Qed.

(** Writing a file that the pattern does not match leaves the matched
    names as they are, in the same order. *)
Lemma matched_store (p : str) (x : bytes) (d : directory) :
  fnmatch pattern p = false -> matched (store p x d) = matched d.
Proof.
  intros Hp. unfold matched.
  induction d as [|[n y] d IH]; cbn [store map fst filter].
  - rewrite Hp. reflexivity.
  - destruct (str_eqb n p) eqn:E; cbn [map fst filter]; [reflexivity|].
    rewrite IH. reflexivity.
Qed.

Lemma matched_In (d : directory) (p : str) :
  In p (matched d) <-> In p (map fst d) /\ fnmatch pattern p = true.
Proof. unfold matched. apply filter_In. Qed.

Lemma inputs_In (lower : str -> str) (d : directory) (p : str) :
  In p (inputs lower d) <-> In p (map fst d) /\ fnmatch pattern p = true.
Proof. unfold inputs. rewrite sorted_In. apply matched_In. Qed.

Lemma inputs_not_output (lower : str -> str) (d : directory) :
  Forall (fun p => p <> output_file) (inputs lower d).
Proof.
  apply Forall_forall. intros p Hp. apply inputs_In in Hp.
  apply matched_not_output. apply Hp.
Qed.

Lemma blocks_store (x : bytes) (d : directory) (files : list str) :
  Forall (fun p => p <> output_file) files ->
  blocks (store output_file x d) files = blocks d files.
Proof.
  induction 1 as [|p files Hp _ IH]; [reflexivity|].
  cbn [blocks]. rewrite lookup_store_other by exact Hp. rewrite IH.
  reflexivity.
Qed.

Lemma content_store (x : bytes) (d : directory) (p : str) :
  p <> output_file -> content (store output_file x d) p = content d p.
Proof.
  intros Hp. unfold content. rewrite lookup_store_other by exact Hp.
  reflexivity.
Qed.

(** ** The loop *)

Lemma encode_separator :
  Utf8.encode (newline ++ separator)
  = inr ([x0a] ++ repeat x2d 100 ++ [x0a]).
Proof. vm_compute. reflexivity. Qed.

(** One iteration on a regular file. *)
Lemma body_file (p : str) (d : directory) (data acc : bytes) :
  p <> output_file ->
  lookup p d = Some (File data) ->
  lookup output_file d = Some (File acc) ->
  body p d = (inr tt, store output_file (acc ++ block data) d).
Proof.
  intros Hp Hdata Hout.
  destruct (decoded_text data) as [Hdec Hsc].
  unfold body, bind, read_text, write. rewrite Hdata, Hdec.
  rewrite (Utf8Facts.encode_scalar _ Hsc), Hout.
  rewrite encode_separator, lookup_store_same, store_store.
  unfold block. rewrite <- app_assoc. reflexivity.
Qed.

(** One iteration on a name that is not a regular file. *)
Lemma body_no_file (p : str) (d : directory) :
  (lookup p d = Some Dir -> body p d = (inl IsADirectoryError, d))
  /\ (lookup p d = None -> body p d = (inl FileNotFoundError, d)).
Proof.
  split; intros H; unfold body, bind, read_text; rewrite H; reflexivity.
Qed.

Lemma loop_blocks (files : list str) :
  forall (d : directory) (acc : bytes),
    lookup output_file d = Some (File acc) ->
    Forall (fun p => p <> output_file) files ->
    for_each files body d
    = (match snd (blocks d files) with
       | None => inr tt
       | Some e => inl e
       end,
       store output_file (acc ++ fst (blocks d files)) d).
Proof.
  induction files as [|p files IH]; intros d acc Hout Hfiles.
  - simpl. rewrite app_nil_r, (store_lookup _ _ _ Hout). reflexivity.
  - inversion Hfiles as [|? ? Hp Hrest]; subst.
    cbn [for_each blocks]. unfold bind.
    destruct (lookup p d) as [[data|]|] eqn:E.
    + rewrite (body_file p d data acc Hp E Hout).
      rewrite (IH _ (acc ++ block data));
        [|apply lookup_store_same|exact Hrest].
      rewrite blocks_store by exact Hrest.
      destruct (blocks d files) as [bs e]. simpl.
      rewrite store_store, <- app_assoc. reflexivity.
    + rewrite (proj1 (body_no_file p d) E). simpl.
      rewrite app_nil_r, (store_lookup _ _ _ Hout). reflexivity.
    + rewrite (proj2 (body_no_file p d) E). simpl.
      rewrite app_nil_r, (store_lookup _ _ _ Hout). reflexivity.
Qed.

(** ** The script in closed form *)

Lemma main_steps (lower : str -> str) (d : directory) :
  main lower d
  = match open_w output_file d with
    | (inl e, d') => (inl e, d')
    | (inr _, d0) =>
        match for_each (inputs lower d0) body d0 with
        | (inl e, d') => (inl e, d')
        | (inr _, d') => (inr message, d')
        end
    end.
Proof.
  unfold main, bind, glob, inputs, matched, ret.
  destruct (open_w output_file d) as [[e|u] d0]; reflexivity.
Qed.

Lemma main_eq (lower : str -> str) (d : directory) :
  main lower d
  = match lookup output_file d with
    | Some Dir => (inl IsADirectoryError, d)
    | _ =>
        (match snd (blocks d (inputs lower d)) with
         | None => inr message
         | Some e => inl e
         end,
         store output_file (fst (blocks d (inputs lower d))) d)
    end.
Proof.
  assert (H : open_w output_file d = (inr tt, store output_file [] d) ->
              main lower d
              = (match snd (blocks d (inputs lower d)) with
                 | None => inr message
                 | Some e => inl e
                 end,
                 store output_file (fst (blocks d (inputs lower d))) d)).
  { intros Hopen. rewrite main_steps, Hopen.
    unfold inputs at 1.
    rewrite (matched_store _ _ _ output_file_unmatched).
    fold (inputs lower d).
    rewrite (loop_blocks _ _ [] (lookup_store_same _ _ _)
               (inputs_not_output lower d)).
    rewrite blocks_store by apply inputs_not_output.
    rewrite store_store. cbn [app].
    destruct (snd (blocks d (inputs lower d))); reflexivity. }
  rewrite main_steps in *. unfold open_w in *.
  destruct (lookup output_file d) as [[?|]|] eqn:E;
    try (apply H; reflexivity).
  reflexivity.
Qed.

Lemma blocks_files (d : directory) (files : list str) :
  Forall (is_file d) files -> blocks d files = (written d files, None).
Proof.
  induction 1 as [|p files [data Hp] _ IH]; [reflexivity|].
  cbn [blocks]. rewrite Hp, IH.
  change (written d (p :: files))
    with (block (content d p) ++ written d files).
  unfold content. rewrite Hp. reflexivity.
Qed.

Lemma blocks_done (d : directory) (files : list str) :
  snd (blocks d files) = None -> Forall (is_file d) files.
Proof.
  induction files as [|p files IH]; [constructor|].
  cbn [blocks]. destruct (lookup p d) as [[data|]|] eqn:E;
    try discriminate.
  destruct (blocks d files) as [bs e]. simpl. intros ->.
  constructor; [exists data; exact E|apply IH; reflexivity].
Qed.

(** A run that returns: the output file was not a directory, every
    matched name was a regular file, and the directory afterwards is the
    one before with the output file rewritten. *)
Lemma main_done (lower : str -> str) (d d' : directory) (msg : str) :
  main lower d = (inr msg, d') ->
  lookup output_file d <> Some Dir
  /\ Forall (is_file d) (inputs lower d)
  /\ msg = message
  /\ d' = store output_file (written d (inputs lower d)) d.
Proof.
  rewrite main_eq. intros H.
  assert (Hout : lookup output_file d <> Some Dir)
    by (intros E; rewrite E in H; discriminate).
  assert (H' : (match snd (blocks d (inputs lower d)) with
                | None => inr message
                | Some e => inl e
                end,
                store output_file (fst (blocks d (inputs lower d))) d)
               = (@inr exn str msg, d'))
    by (destruct (lookup output_file d) as [[?|]|]; congruence).
  clear H. destruct (snd (blocks d (inputs lower d))) eqn:E;
    [discriminate|].
  apply blocks_done in E. rewrite (blocks_files _ _ E) in H'.
  injection H' as <- <-. repeat split; assumption.
Qed.

(** The run returns when the output file is not a directory and every
    matched name is a regular file, whatever bytes the files hold. *)
Lemma main_completes (lower : str -> str) (d : directory) :
  lookup output_file d <> Some Dir ->
  Forall (is_file d) (inputs lower d) ->
  main lower d
  = (inr message, store output_file (written d (inputs lower d)) d).
Proof.
  intros Hout Hfiles. rewrite main_eq, (blocks_files _ _ Hfiles).
  cbn [fst snd].
  destruct (lookup output_file d) as [[?|]|]; congruence.
Qed.

Lemma output_store (x : bytes) (d : directory) :
  output (store output_file x d) = Some x.
Proof. unfold output. rewrite lookup_store_same. reflexivity. Qed.

Lemma written_app (d : directory) (l1 l2 : list str) :
  written d (l1 ++ l2) = written d l1 ++ written d l2.
Proof. unfold written. apply flat_map_app. Qed.

Lemma written_cons (d : directory) (p : str) (l : list str) :
  written d (p :: l) = block (content d p) ++ written d l.
Proof. reflexivity. Qed.

(** * The claims of the specification *)

Lemma sample_run : main ascii_lower sample = (inr message, sample_result).
Proof. vm_compute. reflexivity. Qed.

(** C1.  After a run that returns, the output file holds, for each
    matched file in sorted order, the bytes of the text read from that
    file, then one newline, then 100 dashes, then one newline: the
    separator block follows every content, the last one too.  The files
    taken are the matched names, in ascending order of their keys, and
    each of them was read without an exception. *)
Theorem C1_output_format (lower : str -> str) (d d' : directory) (msg : str) :
  main lower d = (inr msg, d') ->
  output d'
  = Some (flat_map
            (fun p =>
               Utf8.encode_bytes (text (content d p))
               ++ [x0a] ++ repeat x2d 100 ++ [x0a])
            (inputs lower d))
  /\ Permutation (inputs lower d) (matched d)
  /\ StronglySorted (key_le lower) (inputs lower d)
  /\ Forall (fun p => lookup p d = Some (File (content d p))
                      /\ decoded (content d p) = inr (text (content d p)))
            (inputs lower d).
Proof.
  intros H. apply main_done in H. destruct H as (_ & Hfiles & _ & ->).
  repeat split.
  - rewrite output_store. reflexivity.
  - apply sorted_perm.
  - apply sorted_sorted.
  - apply Forall_forall. intros p Hp.
    rewrite Forall_forall in Hfiles. destruct (Hfiles p Hp) as [data E].
    unfold content. rewrite E. split; [reflexivity|].
    apply decoded_text.
Qed.

Lemma C1_output_format_witness :
  main ascii_lower sample = (inr message, sample_result)
  /\ output sample_result
     = Some (flat_map
               (fun p =>
                  Utf8.encode_bytes (text (content sample p))
                  ++ [x0a] ++ repeat x2d 100 ++ [x0a])
               (inputs ascii_lower sample)).
Proof.
  split; [exact sample_run|].
  exact (proj1 (C1_output_format ascii_lower sample sample_result message
                  sample_run)).
Defined.

(** C2.  After a run that returns, of two matched files [f] and [g] with
    [lower(f) < lower(g)], the block of [f] stands before the block of
    [g] in the output file, and no block of [g] stands before it. *)
Theorem C2_sorted_order
  (lower : str -> str) (d d' : directory) (msg : str) (f g : str) :
  main lower d = (inr msg, d') ->
  In f (matched d) -> In g (matched d) ->
  str_ltb (lower f) (lower g) = true ->
  exists l1 l2 l3,
    inputs lower d = l1 ++ f :: l2 ++ g :: l3
    /\ ~ In g l1
    /\ output d'
       = Some (written d l1 ++ block (content d f)
               ++ written d l2 ++ block (content d g) ++ written d l3).
Proof.
  intros H Hf Hg Hlt. apply main_done in H.
  destruct H as (_ & _ & _ & ->).
  destruct (sorted_order lower (matched d) f g Hf Hg Hlt)
    as (l1 & l2 & l3 & E & Hn).
  exists l1, l2, l3. fold (inputs lower d) in E.
  repeat split; [exact E|exact Hn|].
  rewrite output_store, E.
  rewrite written_app, written_cons, written_app, written_cons.
  reflexivity.
Qed.

Lemma C2_sorted_order_witness :
  exists l1 l2 l3,
    inputs ascii_lower sample
    = l1 ++ lit "aCrudManager.java" :: l2 ++ lit "BCrudManager.java" :: l3
    /\ ~ In (lit "BCrudManager.java") l1
    /\ output sample_result
       = Some (written sample l1
               ++ block (content sample (lit "aCrudManager.java"))
               ++ written sample l2
               ++ block (content sample (lit "BCrudManager.java"))
               ++ written sample l3).
Proof.
  apply (C2_sorted_order ascii_lower sample sample_result message).
  - exact sample_run.
  - vm_compute. right. left. reflexivity.
  - vm_compute. left. reflexivity.
  - vm_compute. reflexivity.
Defined.

(** *** The example of the specification *)

Lemma perm3 {A : Type} (x y z : A) (l : list A) :
  Permutation l [x; y; z] ->
  l = [x; y; z] \/ l = [x; z; y] \/ l = [y; x; z]
  \/ l = [y; z; x] \/ l = [z; x; y] \/ l = [z; y; x].
Proof.
  intros H. pose proof (Permutation_length H) as Hlen.
  destruct l as [|a [|b [|c [|? ?]]]]; try discriminate Hlen.
  assert (Ha : In a [x; y; z])
    by (apply (Permutation_in _ H); left; reflexivity).
  destruct Ha as [<-|[<-|[<-|[]]]].
  - apply Permutation_cons_inv, Permutation_length_2_inv in H.
    destruct H as [H|H]; injection H as -> ->; auto.
  - apply (Permutation_cons_app_inv [x] [z]), Permutation_length_2_inv in H.
    destruct H as [H|H]; injection H as -> ->; auto 6.
  - apply (Permutation_cons_app_inv [x; y] []), Permutation_length_2_inv
      in H.
    destruct H as [H|H]; injection H as -> ->; auto 7.
Qed.

Lemma is_ascii_forallb (s : str) :
  forallb (fun c => c <? 128) s = true -> is_ascii s.
Proof.
  intros H. apply Forall_forall. intros c Hc.
  rewrite forallb_forall in H. apply N.ltb_lt. apply H. exact Hc.
Qed.

(** C3, as the specification states it, fails: no name of that
    directory ends with [CrudManager.java], so the loop takes no file and
    the output file is empty. *)
Lemma C3_spec_example_counterexample :
  inputs ascii_lower spec_example
  <> [lit "a.CrudManager"; lit "B.CrudManager"]
  /\ inputs ascii_lower spec_example = []
  /\ output (snd (main ascii_lower spec_example)) = Some [].
Proof.
  vm_compute. split; [discriminate|split; reflexivity].
Qed.

(** C3, amended.  In a directory that holds exactly [a.CrudManager.java],
    [B.CrudManager.java] and [c.txt], in whatever order they are
    enumerated, the loop takes [a.CrudManager.java] and then
    [B.CrudManager.java], not [c.txt], and the output file holds the block
    of the first and then the block of the second. *)
Theorem C3_java_example
  (lower : str -> str) (a b c : bytes) (d : directory) :
  lower_on_ascii lower ->
  Permutation d (java_example a b c) ->
  inputs lower d = [lit "a.CrudManager.java"; lit "B.CrudManager.java"]
  /\ ~ In (lit "c.txt") (inputs lower d)
  /\ main lower d
     = (inr message, store output_file (block a ++ block b) d).
Proof.
  intros Hlower Hd.
  assert (Ha : lower (lit "a.CrudManager.java")
               = ascii_lower (lit "a.CrudManager.java"))
    by (apply Hlower, is_ascii_forallb; vm_compute; reflexivity).
  assert (Hb : lower (lit "B.CrudManager.java")
               = ascii_lower (lit "B.CrudManager.java"))
    by (apply Hlower, is_ascii_forallb; vm_compute; reflexivity).
  assert (Hin : inputs lower d
                = [lit "a.CrudManager.java"; lit "B.CrudManager.java"]).
  { unfold inputs.
    assert (Hm : matched d
                 = [lit "a.CrudManager.java"; lit "B.CrudManager.java"]
                 \/ matched d
                    = [lit "B.CrudManager.java"; lit "a.CrudManager.java"]).
    { apply perm3 in Hd.
      destruct Hd as [->|[->|[->|[->|[->| ->]]]]];
        vm_compute; auto. }
    destruct Hm as [->| ->]; cbn [sorted fold_right insert];
      rewrite Ha, Hb; vm_compute; reflexivity. }
  assert (Hc : content d (lit "a.CrudManager.java") = a
               /\ content d (lit "B.CrudManager.java") = b
               /\ lookup output_file d = None).
  { apply perm3 in Hd.
    destruct Hd as [->|[->|[->|[->|[->| ->]]]]];
      vm_compute; auto. }
  destruct Hc as (Hca & Hcb & Hout).
  assert (Hfiles : Forall (is_file d) (inputs lower d)).
  { rewrite Hin. apply perm3 in Hd.
    destruct Hd as [->|[->|[->|[->|[->| ->]]]]];
      repeat constructor; eexists; vm_compute; reflexivity. }
  repeat split.
  - exact Hin.
  - rewrite Hin. vm_compute. intros [H|[H|[]]]; discriminate H.
  - rewrite main_completes; [|congruence|exact Hfiles].
    rewrite Hin. unfold written. cbn [flat_map].
    rewrite Hca, Hcb, app_nil_r. reflexivity.
Qed.

Lemma C3_java_example_witness :
  inputs ascii_lower java_sample
  = [lit "a.CrudManager.java"; lit "B.CrudManager.java"]
  /\ ~ In (lit "c.txt") (inputs ascii_lower java_sample)
  /\ main ascii_lower java_sample
     = (inr message,
        store output_file
          (block (ascii_bytes "class A {}")
           ++ block (ascii_bytes "class B {}"))
          java_sample).
Proof.
  apply (C3_java_example ascii_lower (ascii_bytes "class A {}")
           (ascii_bytes "class B {}") (ascii_bytes "notes") java_sample).
  - intros s _. reflexivity.
  - symmetry. apply Permutation_rev.
Defined.

(** *** Runs and the output file *)

(** C4.  A second run, on the directory that a first run left, has the
    outcome of the first: the same result and the same directory, so the
    same bytes in the output file. *)
Theorem C4_idempotent (lower : str -> str) (d : directory) :
  main lower (snd (main lower d)) = main lower d
  /\ output (snd (main lower (snd (main lower d))))
     = output (snd (main lower d)).
Proof.
  assert (H : main lower (snd (main lower d)) = main lower d).
  { rewrite (main_eq lower d).
    destruct (lookup output_file d) as [[old|]|] eqn:E; cbn [snd].
    - rewrite main_eq, lookup_store_same.
      unfold inputs. rewrite (matched_store _ _ _ output_file_unmatched).
      fold (inputs lower d).
      rewrite blocks_store by apply inputs_not_output.
      rewrite store_store. reflexivity.
    - rewrite main_eq, E. reflexivity.
    - rewrite main_eq, lookup_store_same.
      unfold inputs. rewrite (matched_store _ _ _ output_file_unmatched).
      fold (inputs lower d).
      rewrite blocks_store by apply inputs_not_output.
      rewrite store_store. reflexivity. }
  split; [exact H|]. rewrite H. reflexivity.
Qed.

(** C5.  The outcome of a run does not depend on what the output file
    held before: with any two prior contents the run has the same result
    and leaves the same directory, and the output file then holds what
    the loop wrote for the matched files, nothing older. *)
Theorem C5_overwrite (lower : str -> str) (d : directory) (old old' : bytes) :
  main lower (store output_file old d) = main lower (store output_file old' d)
  /\ output (snd (main lower (store output_file old d)))
     = Some (fst (blocks d (inputs lower d))).
Proof.
  assert (H : forall x,
             main lower (store output_file x d)
             = (match snd (blocks d (inputs lower d)) with
                | None => inr message
                | Some e => inl e
                end,
                store output_file (fst (blocks d (inputs lower d))) d)).
  { intros x. rewrite main_eq, lookup_store_same.
    unfold inputs. rewrite (matched_store _ _ _ output_file_unmatched).
    fold (inputs lower d).
    rewrite blocks_store by apply inputs_not_output.
    rewrite store_store. reflexivity. }
  split.
  - rewrite !H. reflexivity.
  - rewrite H. cbn [snd]. apply output_store.
Qed.

Lemma blocks_no_file (d : directory) (files : list str) :
  (forall p, In p files -> ~ is_file d p) -> fst (blocks d files) = [].
Proof.
  intros H. destruct files as [|p files]; [reflexivity|].
  cbn [blocks]. destruct (lookup p d) as [[data|]|] eqn:E;
    try reflexivity.
  exfalso. apply (H p); [left; reflexivity|]. exists data. exact E.
Qed.

(** C6.  When no matched name is a regular file (and the output path
    is not a directory), the output file exists after the run and holds
    zero bytes; when no name is matched at all, the run returns. *)
Theorem C6_no_match (lower : str -> str) (d : directory) :
  (forall p, In p (matched d) -> ~ is_file d p) ->
  lookup output_file d <> Some Dir ->
  output (snd (main lower d)) = Some []
  /\ (matched d = [] ->
      main lower d = (inr message, store output_file [] d)).
Proof.
  intros Hnone Hout. split.
  - rewrite main_eq.
    assert (E : fst (blocks d (inputs lower d)) = []).
    { apply blocks_no_file. intros p Hp. apply Hnone.
      apply sorted_In in Hp. exact Hp. }
    rewrite E.
    destruct (lookup output_file d) as [[?|]|];
      [apply output_store|congruence|apply output_store].
  - intros Hempty. rewrite main_completes; [|exact Hout|].
    + unfold inputs. rewrite Hempty. reflexivity.
    + unfold inputs. rewrite Hempty. constructor.
Qed.

Lemma C6_no_match_witness :
  matched spec_example = []
  /\ output (snd (main ascii_lower spec_example)) = Some []
  /\ main ascii_lower spec_example
     = (inr message, store output_file [] spec_example).
Proof.
  assert (Hempty : matched spec_example = []) by (vm_compute; reflexivity).
  split; [exact Hempty|].
  destruct (C6_no_match ascii_lower spec_example) as [Hout Hrun].
  - rewrite Hempty. intros p [].
  - vm_compute. discriminate.
  - split; [exact Hout|exact (Hrun Hempty)].
Defined.

(** *** Decoding errors *)

Module Utf8Laws.
Import Utf8 Utf8Facts.

Lemma decode_continuation (b : byte) (r : bytes) :
  is_continuation (Byte.to_N b) = true ->
  decode Ignore (b :: r) = decode Ignore r.
Proof.
  unfold is_continuation. intros H. to_prop. cbn [decode].
  not_below (Byte.to_N b) 0x80. below (Byte.to_N b) 0xC2. reflexivity.
Qed.

(** A byte that starts no sequence is dropped, alone. *)
Lemma decode_invalid_start (b : byte) (r : bytes) :
  invalid_start b = true -> decode Ignore (b :: r) = decode Ignore r.
Proof.
  unfold invalid_start. intros H. cbn [decode].
  destruct (Byte.to_N b <? 0x80) eqn:E1; to_prop; try (exfalso; lia);
    destruct (Byte.to_N b <? 0xC2) eqn:E2; to_prop; try (exfalso; lia);
    try reflexivity.
  not_below (Byte.to_N b) 0xE0. not_below (Byte.to_N b) 0xF0.
  not_below (Byte.to_N b) 0xF5. reflexivity.
Qed.

(** Where the head of the input is the encoding of no code point, the
    decoder drops the first byte and goes on behind it: the bytes of an
    error range after the first are continuation bytes, which it drops
    one by one all the same. *)
Lemma decode_skip (b : byte) (r : bytes) :
  (forall c r', is_scalar c = true -> b :: r <> encode_cp c ++ r') ->
  decode Ignore (b :: r) = decode Ignore r.
Proof.
  intros Hno. cbn [decode on_error on_truncated].
  decode_cases; cbn [on_error on_truncated]; to_prop;
    try (repeat match goal with
                | H : is_continuation (Byte.to_N ?x) = true
                  |- context [decode Ignore (?x :: ?t)] =>
                    rewrite (decode_continuation x t H)
                end; reflexivity);
    exfalso; unfold is_continuation in *; to_prop;
    lazymatch type of Hno with
    | forall c r', _ -> b :: ?b2 :: ?b3 :: ?b4 :: ?t <> _ =>
        first
          [ destruct (encode_4 b b2 b3 b4 _ ltac:(lia) ltac:(lia) ltac:(lia)
                        ltac:(lia) ltac:(lia) ltac:(lia) eq_refl)
              as [Hs He];
            apply (Hno _ t Hs); rewrite He; reflexivity
          | destruct (encode_3 b b2 b3 _ ltac:(lia) ltac:(lia) ltac:(lia)
                        ltac:(lia) ltac:(lia) eq_refl) as [Hs He];
            apply (Hno _ (b4 :: t) Hs); rewrite He; reflexivity
          | destruct (encode_2 b b2 _ ltac:(lia) ltac:(lia) eq_refl)
              as [Hs He];
            apply (Hno _ (b3 :: b4 :: t) Hs); rewrite He; reflexivity
          | destruct (encode_1 b ltac:(lia)) as [Hs He];
            apply (Hno _ (b2 :: b3 :: b4 :: t) Hs); rewrite He;
            reflexivity ]
    | forall c r', _ -> b :: ?b2 :: ?b3 :: ?t <> _ =>
        first
          [ destruct (encode_3 b b2 b3 _ ltac:(lia) ltac:(lia) ltac:(lia)
                        ltac:(lia) ltac:(lia) eq_refl) as [Hs He];
            apply (Hno _ t Hs); rewrite He; reflexivity
          | destruct (encode_2 b b2 _ ltac:(lia) ltac:(lia) eq_refl)
              as [Hs He];
            apply (Hno _ (b3 :: t) Hs); rewrite He; reflexivity
          | destruct (encode_1 b ltac:(lia)) as [Hs He];
            apply (Hno _ (b2 :: b3 :: t) Hs); rewrite He; reflexivity ]
    | forall c r', _ -> b :: ?b2 :: ?t <> _ =>
        first
          [ destruct (encode_2 b b2 _ ltac:(lia) ltac:(lia) eq_refl)
              as [Hs He];
            apply (Hno _ t Hs); rewrite He; reflexivity
          | destruct (encode_1 b ltac:(lia)) as [Hs He];
            apply (Hno _ (b2 :: t) Hs); rewrite He; reflexivity ]
    | forall c r', _ -> b :: ?t <> _ =>
        destruct (encode_1 b ltac:(lia)) as [Hs He];
        apply (Hno _ t Hs); rewrite He; reflexivity
    end.
Qed.

(** The text on both sides of a byte that starts no sequence is
    kept. *)
Lemma decode_around_invalid (s1 s2 : str) (b : byte) :
  Forall (fun c => is_scalar c = true) s1 ->
  Forall (fun c => is_scalar c = true) s2 ->
  invalid_start b = true ->
  decode Ignore (encode_bytes s1 ++ b :: encode_bytes s2) = inr (s1 ++ s2).
Proof.
  intros H1 H2 Hb. induction H1 as [|c s1 Hc _ IH].
  - cbn [encode_bytes flat_map app].
    rewrite (decode_invalid_start b _ Hb). apply decode_encode. exact H2.
  - cbn [encode_bytes flat_map]. fold (encode_bytes s1).
    rewrite <- app_assoc, (decode_encode_cp Ignore c _ Hc), IH.
    reflexivity.
Qed.

(** Whether the first [k] bytes are the encoding of a code point. *)
Lemma head_at (k : nat) (bs : bytes) :
  (exists c, is_scalar c = true /\ firstn k bs = encode_cp c)
  \/ (forall c, is_scalar c = true -> firstn k bs <> encode_cp c).
Proof.
  assert (Hone : forall c, is_scalar c = true ->
                   firstn k bs = encode_cp c ->
                   decode Strict (firstn k bs) = inr [c]).
  { intros c Hc ->. rewrite <- (app_nil_r (encode_cp c)).
    change (encode_cp c ++ []) with (encode_bytes [c]).
    apply decode_encode. constructor; [exact Hc|constructor]. }
  destruct (decode Strict (firstn k bs)) as [e|[|c [|c2 s']]] eqn:E;
    try (right; intros c0 Hc0 Heq; specialize (Hone c0 Hc0 Heq);
         discriminate Hone).
  left. exists c. apply decode_decodes in E. split.
  - pose proof (decodes_scalar _ _ _ E) as Hs. inversion Hs; assumption.
  - rewrite <- (decodes_strict _ _ E). cbn [encode_bytes flat_map].
    apply app_nil_r.
Qed.

Lemma encode_cp_length (c : N) :
  length (encode_cp c) = 1%nat \/ length (encode_cp c) = 2%nat
  \/ length (encode_cp c) = 3%nat \/ length (encode_cp c) = 4%nat.
Proof.
  unfold encode_cp.
  destruct (c <? 0x80); [auto|].
  destruct (c <? 0x800); [auto|].
  destruct (c <? 0x10000); auto.
Qed.

Lemma firstn_length_app {A : Type} (l r : list A) :
  firstn (length l) (l ++ r) = l.
Proof.
  induction l as [|x l IH]; [reflexivity|].
  simpl. rewrite IH. reflexivity.
Qed.

(** The head of an input is the encoding of a code point, or of none. *)
Lemma head_cases (bs : bytes) :
  (exists c r', is_scalar c = true /\ bs = encode_cp c ++ r')
  \/ (forall c r', is_scalar c = true -> bs <> encode_cp c ++ r').
Proof.
  assert (Hyes : forall k,
             (exists c, is_scalar c = true /\ firstn k bs = encode_cp c) ->
             exists c r', is_scalar c = true /\ bs = encode_cp c ++ r').
  { intros k (c & Hc & E). exists c, (skipn k bs). split; [exact Hc|].
    rewrite <- E. symmetry. apply firstn_skipn. }
  destruct (head_at 1 bs) as [H1|H1]; [left; exact (Hyes _ H1)|].
  destruct (head_at 2 bs) as [H2|H2]; [left; exact (Hyes _ H2)|].
  destruct (head_at 3 bs) as [H3|H3]; [left; exact (Hyes _ H3)|].
  destruct (head_at 4 bs) as [H4|H4]; [left; exact (Hyes _ H4)|].
  right. intros c r' Hc ->.
  destruct (encode_cp_length c) as [L|[L|[L|L]]];
    [apply (H1 c Hc)|apply (H2 c Hc)|apply (H3 c Hc)|apply (H4 c Hc)];
    rewrite <- L; apply firstn_length_app.
Qed.

(** The three equations on the heads fix the decoder: a function that
    obeys them is [decode Ignore]. *)
Lemma decode_ignore_unique (f : bytes -> except str) :
  f [] = inr [] ->
  (forall c r, is_scalar c = true -> f (encode_cp c ++ r) = emit c (f r)) ->
  (forall b r,
     (forall c r', is_scalar c = true -> b :: r <> encode_cp c ++ r') ->
     f (b :: r) = f r) ->
  forall bs, f bs = decode Ignore bs.
Proof.
  intros Hnil Hchar Hskip bs.
  induction bs as [bs IH] using list_length_ind.
  destruct bs as [|b r]; [exact Hnil|].
  destruct (head_cases (b :: r)) as [(c & r' & Hc & E)|Hno].
  - rewrite E, (Hchar c r' Hc), (decode_encode_cp Ignore c r' Hc).
    rewrite IH; [reflexivity|].
    rewrite E, length_app.
    destruct (encode_cp_length c) as [L|[L|[L|L]]]; rewrite L; lia.
  - rewrite (Hskip b r Hno), (decode_skip b r Hno).
    apply IH. simpl. lia.
Qed.

End Utf8Laws.

(** C7.  Whatever bytes the matched files hold, the run returns when the
    files can be opened, and the output file holds a block for every one
    of them, separator included.  The decoder with [errors="ignore"]
    returns a text on every byte sequence; the encoding of that text is
    the byte sequence with some bytes left out, and the text is in the
    block.  What is left out and what is kept is fixed byte by byte: the
    encoding of a code point at the head of the input gives that code
    point, a head that is the encoding of no code point loses its first
    byte only, and decoding goes on behind; so the text on both sides of
    an invalid byte is kept.  The strict decoder returns a text exactly
    on the encodings of texts, where both decoders agree.  The
    equations on the heads leave no choice: a function that obeys them
    is the decoder. *)
Theorem C7_undecodable_bytes (lower : str -> str) (d : directory) :
  lookup output_file d <> Some Dir ->
  Forall (is_file d) (inputs lower d) ->
  main lower d
  = (inr message, store output_file (written d (inputs lower d)) d)
  /\ (forall data : bytes,
        exists s,
          Utf8.decode Utf8.Ignore data = inr s
          /\ subseq (Utf8.encode_bytes s) data
          /\ (forall s', Utf8.decode Utf8.Strict data = inr s' -> s' = s)
          /\ block data
             = Utf8.encode_bytes (universal_newlines s)
               ++ [x0a] ++ repeat x2d 100 ++ [x0a])
  /\ Utf8.decode Utf8.Ignore [] = inr []
  /\ (forall c r,
        Utf8.is_scalar c = true ->
        Utf8.decode Utf8.Ignore (Utf8.encode_cp c ++ r)
        = Utf8.emit c (Utf8.decode Utf8.Ignore r))
  /\ (forall b r,
        (forall c r',
           Utf8.is_scalar c = true -> b :: r <> Utf8.encode_cp c ++ r') ->
        Utf8.decode Utf8.Ignore (b :: r) = Utf8.decode Utf8.Ignore r)
  /\ (forall s1 s2 b,
        Forall (fun c => Utf8.is_scalar c = true) s1 ->
        Forall (fun c => Utf8.is_scalar c = true) s2 ->
        invalid_start b = true ->
        Utf8.decode Utf8.Ignore
          (Utf8.encode_bytes s1 ++ b :: Utf8.encode_bytes s2)
        = inr (s1 ++ s2))
  /\ (forall data s,
        Utf8.decode Utf8.Strict data = inr s
        <-> data = Utf8.encode_bytes s
            /\ Forall (fun c => Utf8.is_scalar c = true) s)
  /\ (forall f : bytes -> except str,
        f [] = inr [] ->
        (forall c r,
           Utf8.is_scalar c = true ->
           f (Utf8.encode_cp c ++ r) = Utf8.emit c (f r)) ->
        (forall b r,
           (forall c r',
              Utf8.is_scalar c = true -> b :: r <> Utf8.encode_cp c ++ r') ->
           f (b :: r) = f r) ->
        forall data, f data = Utf8.decode Utf8.Ignore data).
Proof.
  intros Hout Hfiles. split; [apply main_completes; assumption|].
  split; [|split; [reflexivity|split; [|split; [|split; [|split]]]]];
    [| | | | |exact Utf8Laws.decode_ignore_unique].
  - intros data.
    destruct (Utf8Facts.decode_ignore_total data) as [s Hs].
    exists s. repeat split.
    + exact Hs.
    + apply Utf8Facts.decode_decodes in Hs.
      exact (Utf8Facts.decodes_subseq _ _ _ Hs).
    + intros s' Hs'. apply Utf8Facts.decode_strict_ignore in Hs'.
      congruence.
    + unfold block, text, decoded. rewrite Hs. reflexivity.
  - intros c r Hc. apply Utf8Facts.decode_encode_cp. exact Hc.
  - exact Utf8Laws.decode_skip.
  - exact Utf8Laws.decode_around_invalid.
  - intros data s. split.
    + intros H. apply Utf8Facts.decode_decodes in H. split.
      * symmetry. exact (Utf8Facts.decodes_strict _ _ H).
      * exact (Utf8Facts.decodes_scalar _ _ _ H).
    + intros [-> Hs]. apply Utf8Facts.decode_encode. exact Hs.
Qed.

Lemma C7_undecodable_bytes_witness :
  Utf8.decode Utf8.Strict (content sample (lit "BCrudManager.java"))
  = inl UnicodeDecodeError
  /\ content sample (lit "BCrudManager.java")
     = Utf8.encode_bytes [98] ++ xff :: Utf8.encode_bytes [233; 33]
  /\ Utf8.decode Utf8.Ignore (content sample (lit "BCrudManager.java"))
     = inr ([98] ++ [233; 33])
  /\ main ascii_lower sample
     = (inr message,
        store output_file (written sample (inputs ascii_lower sample)) sample).
Proof.
  assert (Hout : lookup output_file sample <> Some Dir)
    by (vm_compute; discriminate).
  assert (Hfiles : Forall (is_file sample) (inputs ascii_lower sample)).
  { assert (E : inputs ascii_lower sample
                = [lit "aCrudManager.java"; lit "BCrudManager.java"])
      by (vm_compute; reflexivity).
    rewrite E. repeat constructor; eexists; vm_compute; reflexivity. }
  destruct (C7_undecodable_bytes ascii_lower sample Hout Hfiles)
    as (Hrun & _ & _ & _ & _ & Hkeep & _ & _).
  assert (Hdata : content sample (lit "BCrudManager.java")
                  = Utf8.encode_bytes [98]
                    ++ xff :: Utf8.encode_bytes [233; 33])
    by (vm_compute; reflexivity).
  split; [vm_compute; reflexivity|].
  split; [exact Hdata|].
  split; [|exact Hrun].
  rewrite Hdata. apply Hkeep.
  - repeat constructor.
  - repeat constructor.
  - vm_compute. reflexivity.
Defined.

(** *** Matching *)

(** C8.  The loop takes a name of the directory exactly when the name
    ends with [CrudManager.java], letter for letter: a name that differs
    in case only, as [aCrudmanager.java] or [aCRUDMANAGER.JAVA], is not
    taken. *)
Theorem C8_case_sensitive_match (lower : str -> str) (d : directory) :
  (forall name,
     In name (inputs lower d)
     <-> In name (map fst d)
         /\ exists pre, name = pre ++ lit "CrudManager.java")
  /\ glob pattern d = (inr (matched d), d)
  /\ ~ In (lit "aCrudmanager.java") (inputs lower d)
  /\ ~ In (lit "aCRUDMANAGER.JAVA") (inputs lower d).
Proof.
  split; [|split; [reflexivity|split]].
  - intros name. rewrite inputs_In, fnmatch_pattern. reflexivity.
  - intros H. apply inputs_In in H. destruct H as [_ H].
    vm_compute in H. discriminate H.
  - intros H. apply inputs_In in H. destruct H as [_ H].
    vm_compute in H. discriminate H.
Qed.

(** *** The separator *)

(** C9.  After a run that returns, for every file that the loop took,
    the output file holds, after the blocks of the files before it, the
    bytes of its text, then a newline, then the 100 dashes and a newline,
    then the blocks of the files after it: the dashes follow a newline
    whatever the text ends with. *)
Theorem C9_dashes_on_own_line
  (lower : str -> str) (d d' : directory) (msg : str)
  (l1 l2 : list str) (p : str) :
  main lower d = (inr msg, d') ->
  inputs lower d = l1 ++ p :: l2 ->
  output d'
  = Some ((written d l1 ++ Utf8.encode_bytes (text (content d p)))
          ++ [x0a] ++ repeat x2d 100 ++ [x0a] ++ written d l2).
Proof.
  intros H E. apply main_done in H. destruct H as (_ & _ & _ & ->).
  rewrite output_store, E, written_app, written_cons.
  unfold block. rewrite <- !app_assoc. reflexivity.
Qed.

Lemma C9_dashes_on_own_line_witness :
  inputs ascii_lower sample
  = [lit "aCrudManager.java"] ++ lit "BCrudManager.java" :: []
  /\ text (content sample (lit "BCrudManager.java")) = [98; 233; 33]
  /\ output sample_result
     = Some ((written sample [lit "aCrudManager.java"]
              ++ Utf8.encode_bytes
                   (text (content sample (lit "BCrudManager.java"))))
             ++ [x0a] ++ repeat x2d 100 ++ [x0a] ++ written sample []).
Proof.
  split; [vm_compute; reflexivity|].
  split; [vm_compute; reflexivity|].
  apply (C9_dashes_on_own_line ascii_lower sample sample_result message).
  - exact sample_run.
  - vm_compute. reflexivity.
Defined.

(** *** The output file and the inputs *)

Lemma find_In (p : str) (ld : linked_directory) :
  In p (map fst ld) -> find p ld <> None.
Proof.
  induction ld as [|[n e] ld IH]; simpl; [intros []|].
  intros [E|Hin].
  - subst n. rewrite str_eqb_refl. discriminate.
  - destruct (str_eqb n p); [discriminate|apply IH; exact Hin].
Qed.

Lemma find_own (p : str) (d : directory) :
  find p (own d) = option_map Own (lookup p d).
Proof.
  induction d as [|[n x] d IH]; [reflexivity|].
  cbn [own map find lookup fst snd]. fold (own d).
  destruct (str_eqb n p); [reflexivity|exact IH].
Qed.

Lemma names_own (d : directory) : map fst (own d) = map fst d.
Proof.
  unfold own. rewrite map_map. apply map_ext. intros e. reflexivity.
Qed.

Lemma linked_inputs_In
  (lower : str -> str) (ld : linked_directory) (p : str) :
  In p (linked_inputs lower ld)
  <-> In p (map fst ld) /\ fnmatch pattern p = true.
Proof. unfold linked_inputs. rewrite sorted_In. apply filter_In. Qed.

(** Opening a name that is an entry of its own reaches that name. *)
Lemma reach_own (hops : nat) (ld : linked_directory) (p : str) :
  In p (map fst ld) ->
  (forall target, find p ld <> Some (Symlink target)) ->
  reach hops ld p = Some p.
Proof.
  intros Hin Hno. pose proof (find_In p ld Hin) as Hsome.
  destruct hops; cbn [reach];
    destruct (find p ld) as [[x|target]|]; try reflexivity;
    try contradiction; exfalso; apply (Hno target); reflexivity.
Qed.

Lemma linked_inputs_own (lower : str -> str) (d : directory) :
  linked_inputs lower (own d) = inputs lower d.
Proof.
  unfold linked_inputs, inputs, matched. rewrite names_own. reflexivity.
Qed.

Lemma opened_own (lower : str -> str) (d : directory) :
  opened lower (own d) = map Some (inputs lower d).
Proof.
  unfold opened. rewrite linked_inputs_own. apply map_ext_in.
  intros p Hp. apply inputs_In in Hp. destruct Hp as [Hin _].
  apply reach_own.
  - rewrite names_own. exact Hin.
  - intros target. rewrite find_own.
    destruct (lookup p d); discriminate.
Qed.



(** * Further properties of the run *)

(** ** Exceptions and partial output *)

Lemma blocks_app_dir (d : directory) (l1 l2 : list str) (p : str) :
  Forall (is_file d) l1 -> lookup p d = Some Dir ->
  blocks d (l1 ++ p :: l2) = (written d l1, Some IsADirectoryError).
Proof.
  intros Hfiles Hp.
  induction Hfiles as [|q l1 [data Hq] _ IH]; cbn [app blocks].
  - rewrite Hp. reflexivity.
  - rewrite Hq, IH, written_cons. unfold content. rewrite Hq.
    reflexivity.
Qed.

(** X1.  The message is printed last: a run that returns printed
    the line that names the output file, and it got there only because
    the output path was not a directory and no matched name was one. *)
Theorem X1_message_after_loop
  (lower : str -> str) (d d' : directory) (msg : str) :
  main lower d = (inr msg, d') ->
  msg = lit "Fichiers concat" ++ [233] ++ lit "n" ++ [233]
        ++ lit "s dans allCrudManagers.txt"
  /\ lookup output_file d <> Some Dir
  /\ forall p, In p (inputs lower d) -> lookup p d <> Some Dir.
Proof.
  intros H. apply main_done in H.
  destruct H as (Hout & Hfiles & -> & _).
  split; [vm_compute; reflexivity|]. split; [exact Hout|].
  intros p Hp. rewrite Forall_forall in Hfiles.
  destruct (Hfiles p Hp) as [data E]. rewrite E. discriminate.
Qed.

Lemma X1_message_after_loop_witness :
  main ascii_lower sample = (inr message, sample_result)
  /\ message = lit "Fichiers concat" ++ [233] ++ lit "n" ++ [233]
               ++ lit "s dans allCrudManagers.txt".
Proof.
  split; [exact sample_run|].
  exact (proj1 (X1_message_after_loop ascii_lower sample sample_result
                  message sample_run)).
Defined.

(** X2.  When the output path is a directory, opening it raises
    [IsADirectoryError] before anything is read or written: the
    directory is left as it was. *)
Theorem X2_output_is_directory (lower : str -> str) (d : directory) :
  lookup output_file d = Some Dir ->
  main lower d = (inl IsADirectoryError, d).
Proof. intros H. rewrite main_eq, H. reflexivity. Qed.

Lemma X2_output_is_directory_witness :
  lookup output_file blocked_sample = Some Dir
  /\ main ascii_lower blocked_sample = (inl IsADirectoryError, blocked_sample).
Proof.
  split; [vm_compute; reflexivity|].
  apply (X2_output_is_directory ascii_lower blocked_sample).
  vm_compute. reflexivity.
Defined.

(** X3.  When a matched name is a directory, the run raises
    [IsADirectoryError] there and no message is printed; the output file
    stays behind with the blocks of the files sorted before that name,
    and nothing of the files after it. *)
Theorem X3_partial_output
  (lower : str -> str) (d : directory) (l1 l2 : list str) (p : str) :
  lookup output_file d <> Some Dir ->
  inputs lower d = l1 ++ p :: l2 ->
  Forall (is_file d) l1 ->
  lookup p d = Some Dir ->
  main lower d
  = (inl IsADirectoryError, store output_file (written d l1) d).
Proof.
  intros Hout E Hfiles Hp.
  rewrite main_eq, E, (blocks_app_dir d l1 l2 p Hfiles Hp). cbn [fst snd].
  destruct (lookup output_file d) as [[?|]|]; congruence.
Qed.

Lemma X3_partial_output_witness :
  inputs ascii_lower partial_sample
  = [lit "ACrudManager.java"]
    ++ lit "bCrudManager.java" :: [lit "cCrudManager.java"]
  /\ main ascii_lower partial_sample
     = (inl IsADirectoryError,
        store output_file
          (written partial_sample [lit "ACrudManager.java"])
          partial_sample).
Proof.
  split; [vm_compute; reflexivity|].
  apply (X3_partial_output ascii_lower partial_sample
           [lit "ACrudManager.java"] [lit "cCrudManager.java"]
           (lit "bCrudManager.java")).
  - vm_compute. discriminate.
  - vm_compute. reflexivity.
  - repeat constructor. eexists. vm_compute. reflexivity.
  - vm_compute. reflexivity.
Defined.

(** X4.  One iteration of the loop never raises a Unicode error,
    whatever the bytes of the file: reading with [errors="ignore"]
    returns a text, and the text read is always accepted by the strict
    encoder of the output file. *)
Theorem X4_no_unicode_error
  (p : str) (d d' : directory) (e : exn) :
  body p d = (inl e, d') ->
  e <> UnicodeDecodeError /\ e <> UnicodeEncodeError.
Proof.
  unfold body, bind, read_text, write.
  destruct (lookup p d) as [[data|]|];
    try (intros H; injection H as <- _; split; discriminate).
  destruct (decoded_text data) as [-> Hsc].
  rewrite (Utf8Facts.encode_scalar _ Hsc), encode_separator.
  destruct (lookup output_file d) as [[acc|]|];
    try (intros H; injection H as <- _; split; discriminate).
  rewrite lookup_store_same. discriminate.
Qed.

Lemma X4_no_unicode_error_witness :
  body (lit "bCrudManager.java") partial_sample
  = (inl IsADirectoryError, partial_sample)
  /\ IsADirectoryError <> UnicodeDecodeError
  /\ IsADirectoryError <> UnicodeEncodeError.
Proof.
  assert (H : body (lit "bCrudManager.java") partial_sample
              = (inl IsADirectoryError, partial_sample))
    by (vm_compute; reflexivity).
  split; [exact H|].
  exact (X4_no_unicode_error _ _ _ _ H).
Defined.

(** ** What a run leaves alone *)

Lemma store_not_output (x : bytes) (d : directory) :
  filter not_output (store output_file x d) = filter not_output d.
Proof.
  unfold not_output.
  induction d as [|[n y] d IH]; cbn [store filter fst].
  - rewrite str_eqb_refl. reflexivity.
  - destruct (str_eqb n output_file) eqn:E; cbn [filter fst]; rewrite E;
      cbn [negb]; [reflexivity|].
    rewrite IH. reflexivity.
Qed.

(** X5.  In a directory of entries with bytes of their own (none
    of them a link to the output file), whatever the run does, returning
    or raising, the entries other than the output file are afterwards
    what they were, in the same order: the run writes to the output path
    and nowhere else. *)
Theorem X5_other_entries_untouched (lower : str -> str) (d : directory) :
  filter not_output (snd (main lower d)) = filter not_output d
  /\ forall q, q <> output_file ->
       lookup q (snd (main lower d)) = lookup q d.
Proof.
  rewrite main_eq.
  destruct (lookup output_file d) as [[?|]|]; cbn [snd]; split;
    try reflexivity; try apply store_not_output;
    intros q Hq; apply lookup_store_other; exact Hq.
Qed.

(** ** The text that is written *)

Lemma universal_newlines_id (s : str) :
  ~ In 13 s -> universal_newlines s = s.
Proof.
  induction s as [|c s IH]; intros H; [reflexivity|].
  cbn [universal_newlines].
  destruct (N.eqb_spec c 13) as [->|_].
  - exfalso. apply H. left. reflexivity.
  - rewrite IH; [reflexivity|]. intros Hin. apply H. right. exact Hin.
Qed.

(** Reading leaves no carriage return in the text. *)
Lemma universal_newlines_no_cr (s : str) : ~ In 13 (universal_newlines s).
Proof.
  induction s as [s IH] using list_length_ind.
  destruct s as [|c r]; [intros []|].
  cbn [universal_newlines].
  destruct (N.eqb_spec c 13) as [->|Hc].
  - destruct r as [|c2 r2]; [intros [H|[]]; discriminate H|].
    destruct (c2 =? 10); intros [H|H]; try discriminate H;
      revert H; apply IH; simpl; lia.
  - intros [H|H]; [congruence|]. revert H. apply IH. simpl. lia.
Qed.

Lemma text_no_cr (data : bytes) : ~ In 13 (text data).
Proof.
  unfold text, decoded.
  destruct (Utf8.decode Utf8.Ignore data); [intros []|].
  apply universal_newlines_no_cr.
Qed.

Lemma encode_bytes_app (a b : str) :
  Utf8.encode_bytes (a ++ b) = Utf8.encode_bytes a ++ Utf8.encode_bytes b.
Proof. unfold Utf8.encode_bytes. apply flat_map_app. Qed.

Lemma separator_bytes :
  Utf8.encode_bytes (newline ++ separator)
  = [x0a] ++ repeat x2d 100 ++ [x0a].
Proof. vm_compute. reflexivity. Qed.

Lemma separator_scalar :
  Forall (fun c => Utf8.is_scalar c = true) (newline ++ separator).
Proof.
  apply Forall_forall. intros c Hc.
  assert (H : forallb Utf8.is_scalar (newline ++ separator) = true)
    by (vm_compute; reflexivity).
  rewrite forallb_forall in H. apply H. exact Hc.
Qed.

Lemma separator_no_cr : ~ In 13 (newline ++ separator).
Proof.
  assert (H : forallb (fun c => negb (c =? 13)) (newline ++ separator) = true)
    by (vm_compute; reflexivity).
  rewrite forallb_forall in H. intros Hin. specialize (H 13 Hin).
  discriminate H.
Qed.

Lemma block_text (data : bytes) :
  block data = Utf8.encode_bytes (text data ++ newline ++ separator).
Proof.
  unfold block. rewrite encode_bytes_app, separator_bytes. reflexivity.
Qed.

Lemma written_encode (d : directory) (files : list str) :
  written d files = Utf8.encode_bytes (written_text d files).
Proof.
  induction files as [|p files IH]; [reflexivity|].
  rewrite written_cons, IH. unfold written_text. cbn [flat_map].
  rewrite (encode_bytes_app (text (content d p) ++ newline ++ separator)).
  rewrite <- block_text. reflexivity.
Qed.

Lemma written_text_scalar (d : directory) (files : list str) :
  Forall (fun c => Utf8.is_scalar c = true) (written_text d files).
Proof.
  induction files as [|p files IH]; [constructor|].
  unfold written_text. cbn [flat_map].
  apply Forall_app. split; [|exact IH].
  apply Forall_app. split; [apply decoded_text|apply separator_scalar].
Qed.

Lemma written_text_no_cr (d : directory) (files : list str) :
  ~ In 13 (written_text d files).
Proof.
  induction files as [|p files IH]; [intros []|].
  unfold written_text. cbn [flat_map]. intros H.
  apply in_app_or in H. destruct H as [H|H]; [|exact (IH H)].
  apply in_app_or in H. destruct H as [H|H];
    [exact (text_no_cr _ H)|exact (separator_no_cr H)].
Qed.

(** What the loop wrote, on any run, is the blocks of the files it got
    through. *)
Lemma blocks_prefix (d : directory) (files : list str) :
  exists l1 l2,
    files = l1 ++ l2 /\ Forall (is_file d) l1
    /\ fst (blocks d files) = written d l1.
Proof.
  induction files as [|p files (l1 & l2 & E & Hfiles & Hw)].
  - exists [], []. repeat split. constructor.
  - cbn [blocks]. destruct (lookup p d) as [[data|]|] eqn:Ep.
    + exists (p :: l1), l2. destruct (blocks d files) as [bs e].
      cbn [fst] in *. repeat split.
      * rewrite E. reflexivity.
      * constructor; [exists data; exact Ep|exact Hfiles].
      * rewrite written_cons, Hw. unfold content. rewrite Ep.
        reflexivity.
    + exists [], (p :: files). repeat split. constructor.
    + exists [], (p :: files). repeat split. constructor.
Qed.

Lemma main_output (lower : str -> str) (d : directory) (out : bytes) :
  output (snd (main lower d)) = Some out ->
  out = fst (blocks d (inputs lower d)).
Proof.
  rewrite main_eq. unfold output at 1.
  destruct (lookup output_file d) as [[old|]|] eqn:E; cbn [snd].
  - rewrite lookup_store_same. congruence.
  - rewrite E. discriminate.
  - rewrite lookup_store_same. congruence.
Qed.

(** X6.  A file that is well-formed UTF-8 and holds no carriage return
    goes into the output byte for byte, followed by a newline, the 100
    dashes and a newline. *)
Theorem X6_verbatim_copy
  (p : str) (d : directory) (data acc : bytes) (s : str) :
  p <> output_file ->
  lookup p d = Some (File data) ->
  lookup output_file d = Some (File acc) ->
  Utf8.decode Utf8.Strict data = inr s ->
  ~ In 13 s ->
  body p d
  = (inr tt,
     store output_file
       (acc ++ data ++ [x0a] ++ repeat x2d 100 ++ [x0a]) d).
Proof.
  intros Hp Hdata Hout Hs Hcr.
  rewrite (body_file p d data acc Hp Hdata Hout).
  unfold block, text, decoded.
  rewrite (Utf8Facts.decode_strict_ignore data s Hs).
  rewrite (universal_newlines_id s Hcr).
  apply Utf8Facts.decode_decodes in Hs.
  rewrite (Utf8Facts.decodes_strict data s Hs). reflexivity.
Qed.

Lemma X6_verbatim_copy_witness :
  body (lit "ACrudManager.java")
    (store output_file [] partial_sample)
  = (inr tt,
     store output_file
       ([] ++ ascii_bytes "a" ++ [x0a] ++ repeat x2d 100 ++ [x0a])
       (store output_file [] partial_sample)).
Proof.
  apply (X6_verbatim_copy (lit "ACrudManager.java")
           (store output_file [] partial_sample)
           (ascii_bytes "a") [] [97]).
  - vm_compute. discriminate.
  - vm_compute. reflexivity.
  - vm_compute. reflexivity.
  - vm_compute. reflexivity.
  - vm_compute. intros [H|[]]. discriminate H.
Defined.

(** X7.  Whatever bytes the inputs hold, and whether the run returns or
    raises, the output file it leaves is well-formed UTF-8 without a
    carriage return; after a run that returns it decodes, strictly, to
    the texts of the files in order, each followed by a newline and the
    separator. *)
Theorem X7_output_well_formed
  (lower : str -> str) (d : directory) (out : bytes) :
  output (snd (main lower d)) = Some out ->
  (exists s, Utf8.decode Utf8.Strict out = inr s /\ ~ In 13 s)
  /\ (forall msg d',
        main lower d = (inr msg, d') ->
        Utf8.decode Utf8.Strict out
        = inr (written_text d (inputs lower d))).
Proof.
  intros Hout. pose proof (main_output lower d out Hout) as E. split.
  - destruct (blocks_prefix d (inputs lower d)) as (l1 & l2 & _ & _ & Hw).
    exists (written_text d l1). split; [|apply written_text_no_cr].
    rewrite E, Hw, written_encode.
    apply Utf8Facts.decode_encode. apply written_text_scalar.
  - intros msg d' H. apply main_done in H. destruct H as (_ & Hfiles & _).
    rewrite E, (blocks_files _ _ Hfiles). cbn [fst].
    rewrite written_encode.
    apply Utf8Facts.decode_encode. apply written_text_scalar.
Qed.

Lemma X7_output_well_formed_witness :
  output (snd (main ascii_lower sample))
  = Some (written sample (inputs ascii_lower sample))
  /\ Utf8.decode Utf8.Strict (written sample (inputs ascii_lower sample))
     = inr (written_text sample (inputs ascii_lower sample)).
Proof.
  assert (H : output (snd (main ascii_lower sample))
              = Some (written sample (inputs ascii_lower sample)))
    by (vm_compute; reflexivity).
  split; [exact H|].
  apply (proj2 (X7_output_well_formed ascii_lower sample _ H)
           message sample_result).
  vm_compute. reflexivity.
Defined.

Module Utf8Bytes.
Import Utf8 Utf8Facts.

(** A code point above ASCII is written with bytes above ASCII only. *)
Lemma encode_cp_high (c : N) :
  is_scalar c = true -> 0x80 <= c ->
  Forall (fun b => 0x80 <= Byte.to_N b) (encode_cp c).
Proof.
  unfold is_scalar. intros Hs Hc. apply andb_true_iff in Hs.
  destruct Hs as [Hlt _]. apply N.ltb_lt in Hlt.
  unfold encode_cp. not_below c 0x80.
  destruct (c <? 0x800) eqn:E2; [|destruct (c <? 0x10000) eqn:E3];
    to_prop.
  - destruct (split_64 c) as (x & y & -> & Hy).
    rewrite shiftr_6, land_3F by lia.
    rewrite (proj1 (lor_small y ltac:(lia))).
    rewrite (proj1 (proj2 (lor_small x ltac:(lia)))) by lia.
    repeat constructor; rewrite to_N_byte_of_N by lia; lia.
  - destruct (split_64 c) as (q & z & -> & Hz).
    destruct (split_64 q) as (x & y & -> & Hy).
    rewrite shiftr_12, shiftr_6, !land_3F by lia.
    rewrite (proj1 (lor_small z ltac:(lia))).
    rewrite (proj1 (lor_small y ltac:(lia))).
    rewrite (proj1 (proj2 (proj2 (lor_small x ltac:(lia))))) by lia.
    repeat constructor; rewrite to_N_byte_of_N by lia; lia.
  - destruct (split_64 c) as (q & w & -> & Hw).
    destruct (split_64 q) as (q' & z & -> & Hz).
    destruct (split_64 q') as (x & y & -> & Hy).
    rewrite shiftr_18, shiftr_12', shiftr_6, !land_3F by lia.
    rewrite (proj1 (lor_small w ltac:(lia))).
    rewrite (proj1 (lor_small z ltac:(lia))).
    rewrite (proj1 (lor_small y ltac:(lia))).
    rewrite (proj2 (proj2 (proj2 (lor_small x ltac:(lia))))) by lia.
    repeat constructor; rewrite to_N_byte_of_N by lia; lia.
Qed.

(** An ASCII byte of an encoded text is a code point of the text. *)
Lemma encode_bytes_low (s : str) (b : byte) :
  Forall (fun c => is_scalar c = true) s ->
  In b (encode_bytes s) -> Byte.to_N b < 0x80 ->
  In (Byte.to_N b) s.
Proof.
  induction 1 as [|c s Hc _ IH]; [intros []|].
  cbn [encode_bytes flat_map]. fold (encode_bytes s). intros Hin Hb.
  apply in_app_or in Hin. destruct Hin as [Hin|Hin];
    [|right; apply IH; assumption].
  left. destruct (N.ltb_spec c 0x80) as [Hlow|Hhigh].
  - unfold encode_cp in Hin. rewrite (proj2 (N.ltb_lt c 0x80) Hlow) in Hin.
    destruct Hin as [<-|[]]. rewrite to_N_byte_of_N by lia. reflexivity.
  - pose proof (encode_cp_high c Hc Hhigh) as Hall.
    rewrite Forall_forall in Hall. specialize (Hall b Hin). lia.
Qed.

End Utf8Bytes.

(** X8.  The output file of any run holds no carriage-return byte: the
    line endings of the inputs are written as line feeds. *)
Theorem X8_no_carriage_return
  (lower : str -> str) (d : directory) (out : bytes) :
  output (snd (main lower d)) = Some out -> ~ In x0d out.
Proof.
  intros Hout Hin. pose proof (main_output lower d out Hout) as E.
  destruct (blocks_prefix d (inputs lower d)) as (l1 & l2 & _ & _ & Hw).
  rewrite E, Hw, written_encode in Hin.
  apply Utf8Bytes.encode_bytes_low in Hin.
  - exact (written_text_no_cr d l1 Hin).
  - apply written_text_scalar.
  - vm_compute. reflexivity.
Qed.

Lemma X8_no_carriage_return_witness :
  In x0d (content sample (lit "aCrudManager.java"))
  /\ ~ In x0d (written sample (inputs ascii_lower sample)).
Proof.
  split; [vm_compute; auto|].
  apply (X8_no_carriage_return ascii_lower sample).
  vm_compute. reflexivity.
Defined.

(** ** Order *)

(** X9.  Matched names with the same lowercased name are taken in the
    order in which the directory enumerates them, so for such names the
    output depends on that order: two names that differ in case only
    come out one way or the other. *)
Theorem X9_ties_in_enumeration_order
  (lower : str -> str) (d : directory) (k : str) :
  filter (fun p => str_eqb (lower p) k) (inputs lower d)
  = filter (fun p => str_eqb (lower p) k) (matched d)
  /\ output (snd (main ascii_lower tie_sample))
     <> output (snd (main ascii_lower (rev tie_sample))).
Proof.
  split; [apply sorted_stable|]. vm_compute. discriminate.
Qed.

Lemma filter_key_perm {A : Type} (key : A -> str) (k : str) (l l' : list A) :
  Permutation l l' -> NoDup (map key l) ->
  filter (fun y => str_eqb (key y) k) l
  = filter (fun y => str_eqb (key y) k) l'.
Proof.
  induction 1 as [|x l l' _ IH|x y l|l l' l'' H1 IH1 H2 IH2]; intros Hnd.
  - reflexivity.
  - cbn [filter]. cbn [map] in Hnd. inversion Hnd; subst.
    rewrite IH by assumption. reflexivity.
  - cbn [filter].
    destruct (str_eqb (key y) k) eqn:Ey, (str_eqb (key x) k) eqn:Ex;
      try reflexivity.
    apply str_eqb_eq in Ey, Ex. cbn [map] in Hnd.
    inversion Hnd as [|? ? Hnotin _]; subst.
    exfalso. apply Hnotin. left. congruence.
  - rewrite IH1 by exact Hnd. apply IH2.
    apply (Permutation_NoDup (Permutation_map key H1)). exact Hnd.
Qed.

Lemma perm_filter {A : Type} (f : A -> bool) (l l' : list A) :
  Permutation l l' -> Permutation (filter f l) (filter f l').
Proof.
  induction 1 as [|x l l' _ IH|x y l|l l' l'' _ IH1 _ IH2].
  - constructor.
  - cbn [filter]. destruct (f x); [constructor|]; exact IH.
  - cbn [filter]. destruct (f y), (f x); try reflexivity. apply perm_swap.
  - exact (perm_trans IH1 IH2).
Qed.

Lemma lookup_perm (p : str) (d d' : directory) :
  Permutation d d' -> NoDup (map fst d) -> lookup p d = lookup p d'.
Proof.
  induction 1 as [|[n x] d d' _ IH|[n x] [m y] d|d d' d'' H1 IH1 H2 IH2];
    intros Hnd.
  - reflexivity.
  - cbn [lookup]. cbn [map fst] in Hnd. inversion Hnd; subst.
    rewrite IH by assumption. reflexivity.
  - cbn [lookup].
    destruct (str_eqb m p) eqn:Em, (str_eqb n p) eqn:En; try reflexivity.
    apply str_eqb_eq in Em, En. cbn [map fst] in Hnd.
    inversion Hnd as [|? ? Hnotin _]; subst.
    exfalso. apply Hnotin. left. reflexivity.
  - rewrite IH1 by exact Hnd. apply IH2.
    apply (Permutation_NoDup (Permutation_map fst H1)). exact Hnd.
Qed.

Lemma blocks_ext (d d' : directory) (files : list str) :
  (forall p, In p files -> lookup p d = lookup p d') ->
  blocks d files = blocks d' files.
Proof.
  induction files as [|p files IH]; intros H; [reflexivity|].
  cbn [blocks]. rewrite <- (H p) by (left; reflexivity).
  rewrite IH; [reflexivity|]. intros q Hq. apply H. right. exact Hq.
Qed.

(** The result and the output file of a run, from what the run looks
    at: the output path, the files of the loop and their entries. *)
Lemma main_ext (lower : str -> str) (d d' : directory) :
  lookup output_file d <> Some Dir ->
  lookup output_file d' <> Some Dir ->
  inputs lower d = inputs lower d' ->
  (forall p, In p (inputs lower d) -> lookup p d = lookup p d') ->
  fst (main lower d) = fst (main lower d')
  /\ output (snd (main lower d)) = output (snd (main lower d')).
Proof.
  intros Hout Hout' Hin Hlook.
  rewrite !main_eq, <- Hin, <- (blocks_ext d d' _ Hlook).
  destruct (lookup output_file d) as [[?|]|], (lookup output_file d')
    as [[?|]|]; try congruence; cbn [fst snd];
    rewrite !output_store; split; reflexivity.
Qed.

(** X10.  When the lowercased names of the matched entries differ from
    one another, the run does not depend on the order in which the
    directory is enumerated: the same files in the same order, the same
    result and the same bytes in the output file. *)
Theorem X10_enumeration_order_irrelevant
  (lower : str -> str) (d d' : directory) :
  Permutation d d' ->
  NoDup (map fst d) ->
  NoDup (map lower (matched d)) ->
  inputs lower d = inputs lower d'
  /\ fst (main lower d) = fst (main lower d')
  /\ output (snd (main lower d)) = output (snd (main lower d')).
Proof.
  intros Hperm Hnames Hkeys.
  assert (Hin : inputs lower d = inputs lower d').
  { unfold inputs. symmetry. apply sorted_unique; [apply sorted_sorted|].
    intros k. rewrite sorted_stable. symmetry.
    apply filter_key_perm; [|exact Hkeys].
    unfold matched. apply perm_filter, Permutation_map. exact Hperm. }
  assert (Hlook : forall p, lookup p d = lookup p d')
    by (intros p; apply lookup_perm; assumption).
  split; [exact Hin|].
  destruct (lookup output_file d) as [[old|]|] eqn:Eo.
  - apply main_ext; try exact Hin; try (intros; apply Hlook);
      rewrite <- ?Hlook, Eo; discriminate.
  - rewrite !main_eq, <- (Hlook output_file), Eo. cbn [fst snd].
    unfold output. rewrite <- (Hlook output_file), Eo.
    split; reflexivity.
  - apply main_ext; try exact Hin; try (intros; apply Hlook);
      rewrite <- ?Hlook, Eo; discriminate.
Qed.

Lemma X10_enumeration_order_irrelevant_witness :
  inputs ascii_lower sample = inputs ascii_lower (rev sample)
  /\ fst (main ascii_lower sample) = fst (main ascii_lower (rev sample))
  /\ output (snd (main ascii_lower sample))
     = output (snd (main ascii_lower (rev sample))).
Proof.
  apply (X10_enumeration_order_irrelevant ascii_lower sample (rev sample)).
  - apply Permutation_rev.
  - vm_compute. repeat constructor; simpl; intuition discriminate.
  - vm_compute. repeat constructor; simpl; intuition discriminate.
Defined.

(** ** What the run looks at *)

Lemma matched_matching (d : directory) :
  matched d = map fst (filter matching d).
Proof.
  unfold matched, matching.
  induction d as [|[n x] d IH]; [reflexivity|].
  cbn [map filter fst]. destruct (fnmatch pattern n); cbn [map fst];
    rewrite IH; reflexivity.
Qed.

Lemma lookup_matching (d : directory) (p : str) :
  fnmatch pattern p = true -> lookup p (filter matching d) = lookup p d.
Proof.
  intros Hp. unfold matching.
  induction d as [|[n x] d IH]; [reflexivity|].
  cbn [filter fst lookup].
  destruct (fnmatch pattern n) eqn:En; cbn [lookup];
    destruct (str_eqb n p) eqn:E; try reflexivity; try exact IH.
  apply str_eqb_eq in E. congruence.
Qed.



(** ** Size *)

Lemma universal_newlines_length (s : str) :
  (length (Utf8.encode_bytes (universal_newlines s))
   <= length (Utf8.encode_bytes s))%nat.
Proof.
  induction s as [s IH] using list_length_ind.
  destruct s as [|c r]; [simpl; lia|].
  cbn [universal_newlines].
  destruct (N.eqb_spec c 13) as [->|_].
  - destruct r as [|c2 r2]; [simpl; lia|].
    destruct (N.eqb_spec c2 10) as [->|_].
    + specialize (IH r2 ltac:(simpl; lia)).
      change (Utf8.encode_bytes (10 :: universal_newlines r2))
        with (x0a :: Utf8.encode_bytes (universal_newlines r2)).
      change (Utf8.encode_bytes (13 :: 10 :: r2))
        with (x0d :: x0a :: Utf8.encode_bytes r2).
      cbn [length]. lia.
    + specialize (IH (c2 :: r2) ltac:(simpl; lia)).
      change (Utf8.encode_bytes (10 :: universal_newlines (c2 :: r2)))
        with (x0a :: Utf8.encode_bytes (universal_newlines (c2 :: r2))).
      change (Utf8.encode_bytes (13 :: c2 :: r2))
        with (x0d :: Utf8.encode_bytes (c2 :: r2)).
      cbn [length]. lia.
  - specialize (IH r ltac:(simpl; lia)).
    change (Utf8.encode_bytes (c :: universal_newlines r))
      with (Utf8.encode_cp c ++ Utf8.encode_bytes (universal_newlines r)).
    change (Utf8.encode_bytes (c :: r))
      with (Utf8.encode_cp c ++ Utf8.encode_bytes r).
    rewrite !length_app. lia.
Qed.

(** A block is the separator's 102 bytes and at most the bytes of the
    file. *)
Lemma block_length (data : bytes) :
  (102 <= length (block data) <= length data + 102)%nat.
Proof.
  unfold block. rewrite !length_app, repeat_length. cbn [length].
  enough (length (Utf8.encode_bytes (text data)) <= length data)%nat by lia.
  unfold text, decoded.
  destruct (Utf8Facts.decode_ignore_total data) as [s Hs]. rewrite Hs.
  etransitivity; [apply universal_newlines_length|].
  apply subseq_length. apply Utf8Facts.decode_decodes in Hs.
  exact (Utf8Facts.decodes_subseq _ _ _ Hs).
Qed.

Lemma written_length (d : directory) (files : list str) :
  (102 * length files <= length (written d files)
   <= list_sum (map (fun p => length (content d p) + 102) files))%nat.
Proof.
  induction files as [|p files IH]; [simpl; lia|].
  rewrite written_cons, length_app.
  change (list_sum (map (fun q => length (content d q) + 102) (p :: files)))%nat
    with (length (content d p) + 102
          + list_sum (map (fun q => length (content d q) + 102) files))%nat.
  change (length (p :: files)) with (S (length files)).
  pose proof (block_length (content d p)). lia.
Qed.

(** X12.  After a run that returns, the output file holds at least 102
    bytes for every file taken and at most the bytes of the files plus
    102 for each: dropping undecodable bytes and reading line endings as
    line feeds only shortens a content. *)
Theorem X12_output_size
  (lower : str -> str) (d d' : directory) (msg : str) (out : bytes) :
  main lower d = (inr msg, d') ->
  output d' = Some out ->
  (102 * length (inputs lower d) <= length out
   <= list_sum (map (fun p => length (content d p) + 102)
                  (inputs lower d)))%nat.
Proof.
  intros H Hout. apply main_done in H. destruct H as (_ & _ & _ & ->).
  rewrite output_store in Hout. injection Hout as <-.
  apply written_length.
Qed.

Lemma X12_output_size_witness :
  (102 * length (inputs ascii_lower sample)
   <= length (written sample (inputs ascii_lower sample))
   <= list_sum (map (fun p => length (content sample p) + 102)
                  (inputs ascii_lower sample)))%nat
  /\ (length (written sample (inputs ascii_lower sample))
      < list_sum (map (fun p => length (content sample p) + 102)
                    (inputs ascii_lower sample)))%nat.
Proof.
  split; [|vm_compute; lia].
  apply (X12_output_size ascii_lower sample sample_result message).
  - exact sample_run.
  - vm_compute. reflexivity.
Defined.
